(** * Verification of [utils/plotting.py]

    A shallow embedding of the three helpers of [utils/plotting.py]:
    [decode_tokens_for_plotting], [jupyter_heatmap] and [plot_atlas],
    followed by the properties of the specification that were checked
    against them.

    Conventions of the embedding.
    - A Python [str] is a [string] holding its UTF-8 bytes.  The eight
      special characters are ASCII, and an ASCII byte never occurs inside
      a multi-byte UTF-8 sequence, so the one-character substring test and
      [str.replace] act on the bytes as they act on the code points.
    - Python integers are [Z].
    - Values that only flow through comparisons, [abs] and [min]/[max]
      (relevances, scores) are finite binary64 numbers; these operations
      are exact on them, so they are rationals [Q].  NaN is outside the
      model.
    - The luminance of [jupyter_heatmap] is rounded arithmetic, so it is
      computed on binary64 numbers ([float]).
    - Exceptions are values of [exn]; a call that may raise returns a
      [result].
    - A DataFrame is the dtype of its colour column and the list of its
      rows, a row having the columns [plot_atlas] reads.  DataFrames are
      objects of a store, so that what a call does to the caller's frame
      can be stated.  A missing value of the colour column (NaN, None)
      is a value that [isna] marks; missing scores are outside the
      model. *)

From Stdlib Require Import ZArith QArith Qabs Qminmax Floats Uint63 Ascii String.
From stdpp Require Import base option list strings gmap pretty sorting.

(** ** Python exceptions *)

Inductive exn : Type :=
  | AssertionError (msg : string)
  | ValueError (msg : string)
  | OverflowError (msg : string).

Inductive result (A : Type) : Type :=
  | Ok (a : A)
  | Raise (e : exn).
Arguments Ok {A} a.
Arguments Raise {A} e.

#[global] Instance result_ret : MRet result := λ A a, Ok a.
#[global] Instance result_bind : MBind result :=
  λ A B f m, match m with Ok a => f a | Raise e => Raise e end.

(** ** [decode_tokens_for_plotting] *)

(** [special_character in t], for a one-character [special_character]. *)
Fixpoint contains (c : ascii) (t : string) : bool :=
  match t with
  | EmptyString => false
  | String x r => if decide (x = c) then true else contains c r
  end.

(** [t.replace(old, new)] for a one-character [old]: every occurrence is
    replaced, scanning from the left (occurrences of one character cannot
    overlap). *)
Fixpoint replace (old : ascii) (new : string) (t : string) : string :=
  match t with
  | EmptyString => EmptyString
  | String x r =>
      if decide (x = old) then new +:+ replace old new r
      else String x (replace old new r)
  end.

Definition backslash : ascii := "\"%char.

Definition special_characters : list ascii :=
  ["&"; "%"; "$"; "#"; "_"; "{"; "}"; "\"]%char.

(** ['\\' + special_character] *)
Definition escaped (special_character : ascii) : string :=
  String backslash (String special_character EmptyString).

(** The inner loop at index [i]: [t] is the value bound by [enumerate]
    before the loop starts, and every assignment writes
    [t.replace(...)], computed from that [t], into [tokens[i]]. *)
Definition escape_at (i : nat) (t : string) (tokens : list string) : list string :=
  foldl (λ tokens special_character,
           if contains special_character t
           then <[i := replace special_character (escaped special_character) t]> tokens
           else tokens)
        tokens special_characters.

(** [for i, t in enumerate(tokens)]: the list is updated in place while
    it is traversed; [n] counts the elements still to visit. *)
Fixpoint escape_from (n i : nat) (tokens : list string) : list string :=
  match n with
  | O => tokens
  | S n' =>
      match tokens !! i with
      | Some t => escape_from n' (S i) (escape_at i t tokens)
      | None => tokens
      end
  end.

(** The tokenizer is the caller's: [tokenizer idx] is the text of
    [tokenizer.decode([idx])], or [None] when that call raises. *)
Definition decode_tokens_for_plotting
    (input_ids : list Z) (tokenizer : Z → option string) : option (list string) :=
  tokens ← mapM tokenizer input_ids;
  Some (escape_from (length tokens) 0 tokens).

(** *** The escaping the specification describes *)

Definition is_special (c : ascii) : bool := bool_decide (c ∈ special_characters).

(** Every special character gets a backslash in front of it, every other
    character is kept. *)
Fixpoint escape_spec (t : string) : string :=
  match t with
  | EmptyString => EmptyString
  | String x r =>
      if is_special x then String backslash (String x (escape_spec r))
      else String x (escape_spec r)
  end.

(** What one token becomes: the replacement for the last special
    character of the list that occurs in it, or the token itself. *)
Definition escape_token (t : string) : string :=
  foldl (λ current special_character,
           if contains special_character t
           then replace special_character (escaped special_character) t
           else current)
        t special_characters.

(** ** [jupyter_heatmap] *)

#[local] Set Warnings "-inexact-float".

(** The [relevances] argument: a plain list, which has no [min]
    attribute, or a one-dimensional numeric array, which has. *)
Inductive relevances : Type :=
  | PyList (values : list Q)
  | NdArray (values : list Q).

Definition values (rs : relevances) : list Q :=
  match rs with PyList vs | NdArray vs => vs end.

(** [hasattr(relevances, 'min')] *)
Definition hasattr_min (rs : relevances) : bool :=
  match rs with PyList _ => false | NdArray _ => true end.

(** [ndarray.min()] and [ndarray.max()]: a reduction without identity,
    which raises on an array of size zero. *)
Definition ndarray_min (vs : list Q) : result Q :=
  match vs with
  | [] => Raise (ValueError
            "zero-size array to reduction operation minimum which has no identity")
  | v :: vs => Ok (foldl Qmin v vs)
  end.

Definition ndarray_max (vs : list Q) : result Q :=
  match vs with
  | [] => Raise (ValueError
            "zero-size array to reduction operation maximum which has no identity")
  | v :: vs => Ok (foldl Qmax v vs)
  end.

(** The RGBA tuple a colormap returns. *)
Record rgba : Type := RGBA { red : float; green : float; blue : float; alpha : float }.

(** [int(x)] for a float [x]: truncation towards zero; NaN and the
    infinities raise. *)
Definition py_int (x : float) : result Z :=
  match Prim2SF x with
  | S754_zero _ => Ok 0%Z
  | S754_finite s m e =>
      let magnitude :=
        if (0 <=? e)%Z then (Z.pos m * 2 ^ e)%Z else (Z.pos m / 2 ^ (- e))%Z in
      Ok (if s then (- magnitude)%Z else magnitude)
  | S754_infinity _ => Raise (OverflowError "cannot convert float infinity to integer")
  | S754_nan => Raise (ValueError "cannot convert float NaN to integer")
  end.

(** The float an integer operand is converted to (round to nearest). The
    integers that reach [luminance] come out of [py_int], so they are
    floats already and the conversion is exact. *)
Definition Z2float (z : Z) : float := SF2Prim (binary_normalize prec emax z 0 false).

(** [(0.299 * r + 0.587 * g + 0.114 * b) / 255] *)
Definition luminance (r g b : Z) : float :=
  ((0.299 * Z2float r + 0.587 * Z2float g + 0.114 * Z2float b) / 255)%float.

(** ['white' if luminance < 0.5 else 'black'] *)
Definition text_color (r g b : Z) : string :=
  if (luminance r g b <? 0.5)%float then "white" else "black".

Definition dquote : string := String "034"%char EmptyString.

Definition html_open : string :=
  "<div style=" +:+ dquote +:+
  "line-height: 1.8; font-size: 16px; font-family: Arial, sans-serif; padding: 10px; border: 2px solid #333;"
  +:+ dquote +:+ ">".

Definition html_close : string := "</div>".

(** The [<span>] appended for one token. *)
Definition styled_element (r g b : Z) (color token : string) : string :=
  "<span style=" +:+ dquote +:+ "background-color: rgb("
  +:+ pretty r +:+ "," +:+ pretty g +:+ "," +:+ pretty b +:+ "); "
  +:+ "color: " +:+ color +:+ "; padding: 2px 4px; margin: 1px; "
  +:+ "display: inline-block; border-radius: 2px;" +:+ dquote +:+ ">"
  +:+ token +:+ "</span>".

(** [''.join(parts)] *)
Definition join (parts : list string) : string := foldr String.append EmptyString parts.

Definition length_message : string :=
  "The number of tokens and relevances must be the same.".
Definition range_message : string :=
  "The relevances must be normalized between -1 and 1.".

Section heatmap_model.

(** [_apply_colormap(relevance, cmap)]: matplotlib's colormap lookup and
    call, which are not part of the repository. *)
Context (apply_colormap : Q → string → result rgba).

(** [rgb = _apply_colormap(relevance, cmap)] and
    [r, g, b = int(rgb[0]*255), int(rgb[1]*255), int(rgb[2]*255)] *)
Definition channels (relevance : Q) (cmap : string) : result (Z * Z * Z) :=
  rgb ← apply_colormap relevance cmap;
  r ← py_int (red rgb * 255)%float;
  g ← py_int (green rgb * 255)%float;
  b ← py_int (blue rgb * 255)%float;
  Ok (r, g, b).

(** [for token, relevance in zip(tokens, relevances)], appending to
    [html_parts]. *)
Fixpoint render (cmap : string) (pairs : list (string * Q)) (html_parts : list string)
    : result (list string) :=
  match pairs with
  | [] => Ok html_parts
  | (token, relevance) :: pairs =>
      '(r, g, b) ← channels relevance cmap;
      render cmap pairs (html_parts ++ [styled_element r g b (text_color r g b) token])
  end.

(** The range assertion, made only when [relevances] has a [min]
    attribute; [and] does not evaluate [max()] when the first test fails. *)
Definition check_range (rs : relevances) : result unit :=
  if hasattr_min rs then
    lo ← ndarray_min (values rs);
    ok ← (if Qle_bool (-1) lo
          then hi ← ndarray_max (values rs); Ok (Qle_bool hi 1)
          else Ok false);
    if ok : bool then Ok () else Raise (AssertionError range_message)
  else Ok ().

(** The result is the HTML handed to [display(HTML(...))]. *)
Definition jupyter_heatmap (tokens : list string) (rs : relevances) (cmap : string)
    : result string :=
  if negb (length tokens =? length (values rs))%nat
  then Raise (AssertionError length_message)
  else
    _ ← check_range rs;
    html_parts ← render cmap (zip tokens (values rs)) [html_open];
    Ok (join (html_parts ++ [html_close])).

(** The element appended for a pair of [zip(tokens, relevances)]. *)
Definition rendered (cmap : string) (pair : string * Q) (element : string) : Prop :=
  ∃ r g b, channels pair.2 cmap = Ok (r, g, b)
           ∧ element = styled_element r g b (text_color r g b) pair.1.

End heatmap_model.

(** A relevance inside the closed interval from -1 to 1. *)
Definition in_range (v : Q) : Prop := (-1 <= v)%Q ∧ (v <= 1)%Q.

(** The exact value of the luminance formula, for comparison with the
    rounded one. *)
Definition exact_luminance (r g b : Z) : Q :=
  ((299 # 1000) * inject_Z r + (587 # 1000) * inject_Z g + (114 # 1000) * inject_Z b)
  / inject_Z 255.

(** ** [plot_atlas] *)

(** The dtype of a column, as far as [plot_atlas] looks at it. *)
Inductive dtype : Type := object | category | int64 | float64 | bool_.

(** Objects live in a store; a variable holds the location of its
    DataFrame. *)
Definition loc : Type := positive.

#[global] Instance Q_eq_dec : EqDecision Q.
Proof. solve_decision. Defined.

Section atlas_model.

(** The values of the colour column, with the order [sorted] and
    [groupby] use on them, and [pd.isna], which tells the missing values
    (NaN, None) from the others. *)
Context {K : Type} `{EqDecision K} (key_leb : K → K → bool) (isna : K → bool).

(** One row: the columns [head], [layer], [df[size_col]] and
    [df[color_col]], and the column [abs_score_temp], which holds no
    value until it is assigned. *)
Record row : Type := Row {
  head : Z;
  layer : Z;
  score : Q;
  color : K;
  abs_score_temp : option Q
}.

Record DataFrame : Type := Frame {
  color_dtype : dtype;
  rows : list row
}.

#[global] Instance row_eq_dec : EqDecision row.
Proof. solve_decision. Defined.

(** [Series.unique()]: the distinct values, in order of first appearance. *)
Definition unique (vs : list K) : list K :=
  foldl (λ seen v, if decide (v ∈ seen) then seen else seen ++ [v]) [] vs.

(** [Series.dropna()] *)
Definition dropna (vs : list K) : list K := filter (λ v, isna v = false) vs.

(** [Series.nunique()]: missing values are not counted ([dropna=True]). *)
Definition nunique (vs : list K) : nat := length (unique (dropna vs)).

(** [sorted(values)].  The comparisons are taken to return (Python
    raises on values it cannot compare, such as [None] and a string).  On
    values that [key_leb] orders totally the sorted list does not depend
    on the sorting algorithm; where a missing value lands among the others
    is not modelled beyond its being there. *)
Fixpoint insert_key (v : K) (sorted : list K) : list K :=
  match sorted with
  | [] => [v]
  | x :: rest => if key_leb v x then v :: x :: rest else x :: insert_key v rest
  end.

Definition sorted (vs : list K) : list K := foldr insert_key [] vs.

(** 1. Determine Color Mode *)
Definition color_mode (df : DataFrame) : bool :=
  match color_dtype df with
  | object | category => true
  | _ => if decide (nunique (color <$> rows df) < 20)%nat then true else false
  end.

(** [df_plot['abs_score_temp'] = df_plot[size_col].abs()] *)
Definition with_abs (r : row) : row :=
  Row (head r) (layer r) (score r) (color r) (Some (Qabs (score r))).

Definition set_abs_score_temp (df : DataFrame) : DataFrame :=
  Frame (color_dtype df) (with_abs <$> rows df).

(** The order of [nlargest] on a column: a row without a value comes
    after every row that has one. *)
Definition larger (a b : option Q) : bool :=
  match a, b with
  | Some x, Some y => negb (Qle_bool x y)
  | Some _, None => true
  | None, _ => false
  end.

(** Sorting by decreasing [abs_score_temp]; rows with equal values keep
    their order ([keep='first']). *)
Fixpoint insert_row (r : row) (sorted : list row) : list row :=
  match sorted with
  | [] => [r]
  | x :: rest =>
      if larger (abs_score_temp x) (abs_score_temp r)
      then x :: insert_row r rest
      else r :: x :: rest
  end.

Definition sort_descending (rs : list row) : list row := foldr insert_row [] rs.

(** [x.nlargest(n, 'abs_score_temp')]: nothing for [n <= 0]. *)
Definition nlargest (n : Z) (rs : list row) : list row :=
  take (Z.to_nat n) (sort_descending rs).

(** [df.groupby(color_col, group_keys=False).apply(f)], as pandas 1 and
    2 do it.  A missing value is no group key ([dropna=True], the
    default): the rows whose colour is missing belong to no group and are
    not in the result.  The groups are taken in the sorted order of their
    keys, each with its rows in their original order and with the
    grouping column kept.  When [f] returns every group as it got it, the
    result has the grouped rows in their original order; otherwise the
    results are concatenated group after group. *)
Definition groupby_apply (f : list row → list row) (rs : list row) : list row :=
  let keys := sorted (unique (dropna (color <$> rs))) in
  let groups := (λ key, filter (λ r, color r = key) rs) <$> keys in
  let results := f <$> groups in
  if decide (results = groups) then filter (λ r, isna (color r) = false) rs
  else concat results.

(** [np.arange(start, stop, step)] on integers, for a positive step. *)
Definition arange (start stop step : Z) : list Z :=
  (λ i, (start + Z.of_nat i * step)%Z)
    <$> seq 0 (Z.to_nat ((stop - start + step - 1) / step)).

(** [Series.max()] of a column that is not empty. *)
Definition column_max (v : Z) (vs : list Z) : Z := foldl Z.max v vs.

(** The ticks of both axes, from a frame that is not empty:
    [np.arange(0, df['head'].max() + 1, 2)] and
    [np.arange(0, df['layer'].max() + 1, 1)]. *)
Definition axis_ticks (df : DataFrame) : option (list Z * list Z) :=
  match rows df with
  | [] => None
  | r :: rs =>
      Some (arange 0 (column_max (head r) (head <$> rs) + 1) 2,
            arange 0 (column_max (layer r) (layer <$> rs) + 1) 1)
  end.

(** The legend of the categorical mode: every distinct value of the
    plotted colour column ([Series.unique()] keeps a missing value), in
    sorted order, with the index of its colour in a palette of [cmap_N]
    colours. *)
Definition legend_entries (cmap_N : nat) (plot : list row) : list (K * nat) :=
  let unique_vals := sorted (unique (color <$> plot)) in
  imap (λ i val, (val, i mod cmap_N)%nat) unique_vals.

(** What is drawn: the scatter data [df_plot], the legend of the
    categorical mode (value and palette index) or none for the colour bar
    of the continuous mode, the title suffix, and the axis ticks when
    they are set. *)
Record figure : Type := Figure {
  data : list row;
  legend : option (list (K * nat));
  title_suffix : string;
  ticks : option (list Z * list Z)
}.

(** 3. Prepare Plot Arrays *)
Definition x_plot (fig : figure) : list Z := head <$> data fig.
Definition y_plot (fig : figure) : list Z := layer <$> data fig.
Definition sizes_plot (scale_factor : Q) (fig : figure) : list (option Q) :=
  (λ r, (λ a, (a * scale_factor)%Q) <$> abs_score_temp r) <$> data fig.

(** The store, and commands that read and extend it. *)
Definition cmd (A : Type) : Type :=
  gmap loc DataFrame → option (A * gmap loc DataFrame).

#[global] Instance cmd_ret : MRet cmd := λ A a σ, Some (a, σ).
#[global] Instance cmd_bind : MBind cmd :=
  λ A B k m σ, match m σ with Some (a, σ') => k a σ' | None => None end.

(** Reading the object at a location; a location always refers to an
    object, so a failed lookup stands for no execution at all. *)
Definition load (l : loc) : cmd DataFrame := λ σ, (λ df, (df, σ)) <$> σ !! l.

(** A new object. *)
Definition new (df : DataFrame) : cmd loc :=
  λ σ, let l := fresh (dom σ) in Some (l, <[l := df]> σ).

(** In-place update of the object at a location. *)
Definition update (l : loc) (f : DataFrame → DataFrame) : cmd unit :=
  λ σ, (λ df, ((), <[l := f df]> σ)) <$> σ !! l.

(** [df.copy()] *)
Definition copy (l : loc) : cmd loc := df ← load l; new df.

(** [plot_atlas(df, color_col, size_col, top_k, scale_factor, figsize,
    cmap_name)].  The columns named by [size_col] and [color_col] are the
    fields [score] and [color] of a row; [cmap_N] is the number of colours
    of the palette [plt.get_cmap(cmap_name)]; [scale_factor] only enters
    [sizes_plot], and [figsize] nothing that is modelled.  The calls into
    matplotlib are taken to return. *)
Definition plot_atlas (df : loc) (color_col : string) (top_k : option Z) (cmap_N : nat)
    : cmd figure :=
  (* 1. Determine Color Mode *)
  frame ← load df;
  let is_categorical := color_mode frame in
  (* 2. Filter Data (Top K) *)
  df_plot ← copy df;
  _ ← update df_plot set_abs_score_temp;
  '(df_plot, title_suffix) ←
    match top_k with
    | Some k =>
        plot ← load df_plot;
        if is_categorical then
          df_plot ← new (Frame (color_dtype plot) (groupby_apply (nlargest k) (rows plot)));
          mret (df_plot, "(Top " +:+ pretty k +:+ " per " +:+ color_col +:+ ")")
        else
          df_plot ← new (Frame (color_dtype plot) (nlargest k (rows plot)));
          mret (df_plot, "(Top " +:+ pretty k +:+ " Global)")
    | None => mret (df_plot, " ")
    end;
  (* 3. Prepare Plot Arrays, 4. Setup Plot *)
  plot ← load df_plot;
  let legend :=
    if is_categorical then Some (legend_entries cmap_N (rows plot)) else None in
  (* 5. Formatting: [if not df.empty] reads the caller's frame again *)
  frame ← load df;
  mret (Figure (rows plot) legend title_suffix (axis_ticks frame)).

(** [a] does not come after [b] in the order of [nlargest]. *)
Definition no_smaller (a b : row) : Prop :=
  larger (abs_score_temp b) (abs_score_temp a) = false.

(** The rows that are drawn, as a function of the caller's frame. *)
Definition filtered (frame : DataFrame) (top_k : option Z) : list row :=
  let plot := rows (set_abs_score_temp frame) in
  match top_k with
  | None => plot
  | Some k =>
      if color_mode frame then groupby_apply (nlargest k) plot else nlargest k plot
  end.

End atlas_model.

(** ** Auxiliary definitions *)

(** Reading an escaped text back: a backslash is dropped and the
    character after it is kept. *)
Fixpoint unescape (t : string) : string :=
  match t with
  | EmptyString => EmptyString
  | String x r =>
      if decide (x = backslash) then
        match r with
        | EmptyString => String x EmptyString
        | String y r' => String y (unescape r')
        end
      else String x (unescape r)
  end.

(** The luminance formula on the floats of the three channels. *)
Definition luminance_of (fr fg fb : float) : float :=
  ((0.299 * fr + 0.587 * fg + 0.114 * fb) / 255)%float.

(** The integers from 0 to 255 with the floats they convert to. *)
Definition byte_table : list (Z * float) := (λ z, (z, Z2float z)) <$> seqZ 0 256.

(** For one colour: the comparison of the computed luminance with 0.5
    agrees with that of the exact one, which is not one half. *)
Definition agrees (r g b : Z * float) : bool :=
  let e := (299 * r.1 + 587 * g.1 + 114 * b.1)%Z in
  negb (e =? 127500)%Z
  && Bool.eqb (luminance_of r.2 g.2 b.2 <? 0.5)%float (e <? 127500)%Z.

(** The same for every colour with two equal channels taken from a
    table. *)
Definition agrees_on_two_equal (table : list (Z * float)) : bool :=
  forallb (λ x, forallb (λ y, agrees x x y && agrees x y y && agrees x y x) table) table.

(** The integers from 0 to 255 as machine integers, with the floats they
    convert to. *)
Definition byte_cells : list (int * float) :=
  (λ z, (Uint63.of_Z z, Z2float z)) <$> seqZ 0 256.

(** For one colour: the computed luminance compares below 0.5 only if
    the exact one is at most one half, and not below 0.5 only if the exact
    one is at least one half. *)
Definition cell_agrees (r g b : int * float) : bool :=
  let e := (299 * r.1 + 587 * g.1 + 114 * b.1)%uint63 in
  if (luminance_of r.2 g.2 b.2 <? 0.5)%float then (e <=? 127500)%uint63
  else (127500 <=? e)%uint63.

(** The same for every colour with its three channels taken from a
    list. *)
Definition agrees_on (cells : list (int * float)) : bool :=
  forallb (λ r, forallb (λ g, forallb (λ b, cell_agrees r g b) cells) cells) cells.

(** ** Sample inputs *)

Definition sample_tokenizer (idx : Z) : option string :=
  if decide (idx = 1%Z) then Some "a_b_" else Some "hi".

(** A colormap that answers the same colour for every relevance. *)
Definition sample_colormap (relevance : Q) (cmap : string) : result rgba :=
  Ok (RGBA 0 0.8 0.2667 1).

(** An integer colour column has no missing value. *)
Definition no_missing (v : Z) : bool := false.

(** A frame with an integer colour column of two values, alone in its
    store. *)
Definition sample_frame : @DataFrame Z :=
  Frame int64
    [Row 0 0 (1 # 2) 1%Z None; Row 3 1 (- 3 # 2) 1%Z None;
     Row 5 2 (1 # 4) 2%Z None; Row 1 4 (- 2) 2%Z None].

Definition sample_store : gmap loc (@DataFrame Z) := {[ 1%positive := sample_frame ]}.

(** A float colour column: a number, or NaN, which is missing and
    compares false with every value. *)
Definition nan_isna (v : option Z) : bool :=
  match v with Some _ => false | None => true end.

Definition nan_leb (x y : option Z) : bool :=
  match x, y with Some a, Some b => (a <=? b)%Z | _, _ => false end.

(** A frame whose float colour column holds the number 1 and a NaN. *)
Definition frame_with_nan : @DataFrame (option Z) :=
  Frame float64
    [Row 0 0 (1 # 2) (Some 1%Z) None; Row 1 0 2 None None;
     Row 2 1 (- 3 # 4) (Some 1%Z) None].

Definition store_with_nan : gmap loc (@DataFrame (option Z)) :=
  {[ 1%positive := frame_with_nan ]}.

(** Frames whose integer colour column has [n] distinct values. *)
Definition frame_with_colors (n : nat) : @DataFrame Z :=
  Frame int64 ((λ i, Row 0 0 1 (Z.of_nat i) None) <$> seq 0 n).

(** A tokenizer for one id, whose text has two special characters. *)
Definition ampersand_tokenizer (idx : Z) : option string := Some "&_".

(** A colormap of two colours: black up to zero, white above. *)
Definition two_tone_colormap (relevance : Q) (cmap : string) : result rgba :=
  if Qle_bool relevance 0 then Ok (RGBA 0 0 0 1) else Ok (RGBA 1 1 1 1).

(** A colormap that has no colour for relevances above zero. *)
Definition partial_colormap (relevance : Q) (cmap : string) : result rgba :=
  if Qle_bool relevance 0 then Ok (RGBA 0 0.8 0.2667 1)
  else Raise (ValueError "no colour").

(** * Properties *)

(** ** [decode_tokens_for_plotting] *)

Section decoder.
Implicit Types (t : string) (c : ascii) (tokens : list string) (i n : nat).

Lemma length_escape_at i t tokens : length (escape_at i t tokens) = length tokens.
Proof.
  unfold escape_at. generalize special_characters as cs.
  intros cs; revert tokens; induction cs as [|c cs IH]; intros tokens; simpl; [done|].
  rewrite IH. destruct (contains c t); [apply length_insert|done].
Qed.

Lemma escape_at_lookup_ne i j t tokens :
  i ≠ j → escape_at i t tokens !! j = tokens !! j.
Proof.
  intros Hij. unfold escape_at. generalize special_characters as cs.
  intros cs; revert tokens; induction cs as [|c cs IH]; intros tokens; simpl; [done|].
  rewrite IH. destruct (contains c t); [by apply list_lookup_insert_ne|done].
Qed.

(** The value left at index [i] is a fold over the special characters
    whose accumulator is the current [tokens[i]]. *)
Lemma escape_at_lookup_eq i t tokens cur :
  tokens !! i = Some cur →
  escape_at i t tokens !! i =
    Some (foldl (λ current c, if contains c t then replace c (escaped c) t else current)
                cur special_characters).
Proof.
  unfold escape_at. generalize special_characters as cs.
  intros cs; revert tokens cur; induction cs as [|c cs IH]; intros tokens cur Hcur; simpl; [done|].
  destruct (contains c t); [|by apply IH].
  apply IH. apply list_lookup_insert_eq. by eapply lookup_lt_Some.
Qed.

Lemma escape_at_token i t tokens :
  tokens !! i = Some t → escape_at i t tokens = <[i := escape_token t]> tokens.
Proof.
  intros Ht. apply list_eq; intros j. destruct (decide (i = j)) as [<-|Hne].
  - rewrite (escape_at_lookup_eq _ _ _ _ Ht).
    rewrite list_lookup_insert_eq; [done|by eapply lookup_lt_Some].
  - rewrite escape_at_lookup_ne by done. by rewrite list_lookup_insert_ne.
Qed.

(** The in-place traversal visits each index once and never reads an
    index it has written, so it is a [map]. *)
Lemma escape_from_spec n done_ todo :
  n = length todo →
  escape_from n (length done_) (done_ ++ todo) = done_ ++ (escape_token <$> todo).
Proof.
  revert done_ todo. induction n as [|n IH]; intros done_ todo Hn.
  - destruct todo; [done|discriminate].
  - destruct todo as [|t todo]; [discriminate|]. simpl in Hn.
    cbn [escape_from]. rewrite list_lookup_middle by done.
    rewrite escape_at_token by (by apply list_lookup_middle).
    replace (<[length done_ := escape_token t]> (done_ ++ t :: todo))
      with ((done_ ++ [escape_token t]) ++ todo).
    2:{ rewrite insert_app_r_alt by lia. rewrite Nat.sub_diag. simpl.
        by rewrite <- app_assoc. }
    replace (S (length done_)) with (length (done_ ++ [escape_token t]))
      by (rewrite length_app; simpl; lia).
    rewrite IH by lia. by rewrite <- app_assoc.
Qed.

Lemma escape_from_map tokens :
  escape_from (length tokens) 0 tokens = escape_token <$> tokens.
Proof. exact (escape_from_spec (length tokens) [] tokens eq_refl). Qed.

Lemma decode_tokens_for_plotting_map input_ids tokenizer :
  decode_tokens_for_plotting input_ids tokenizer =
    (fmap escape_token) <$> mapM tokenizer input_ids.
Proof.
  unfold decode_tokens_for_plotting.
  destruct (mapM tokenizer input_ids) as [tokens|]; simpl; [|done].
  by rewrite escape_from_map.
Qed.

Lemma contains_head c r : contains c (String c r) = true.
Proof. simpl. by rewrite decide_True. Qed.

Lemma contains_tail c x r : contains c r = true → contains c (String x r) = true.
Proof. intros H. simpl. by destruct (decide (x = c)). Qed.

Lemma is_special_true c : is_special c = true ↔ c ∈ special_characters.
Proof. unfold is_special. apply bool_decide_eq_true. Qed.

(** A token whose special characters are all the same character [c]:
    the fold keeps the replacement for [c], or the token when [c] does
    not occur. *)
Lemma foldl_one_special t c cs current :
  (∀ c', c' ∈ cs → contains c' t = true → c' = c) →
  foldl (λ current c', if contains c' t then replace c' (escaped c') t else current)
        current cs
  = if bool_decide (c ∈ cs) && contains c t then replace c (escaped c) t else current.
Proof.
  revert current. induction cs as [|c0 cs IH]; intros current Hone; simpl; [done|].
  rewrite IH by (intros c' Hc'; apply Hone; by right).
  destruct (contains c0 t) eqn:Hc0.
  - assert (c0 = c) as -> by (apply Hone; [by left|done]).
    rewrite Hc0, andb_true_r.
    rewrite (bool_decide_eq_true_2 (c ∈ c :: cs)) by by left.
    by destruct (bool_decide (c ∈ cs)).
  - destruct (decide (c0 = c)) as [->|Hne].
    + rewrite Hc0, !andb_false_r. done.
    + destruct (contains c t); [|by rewrite !andb_false_r].
      rewrite !andb_true_r.
      rewrite (bool_decide_ext (c ∈ c0 :: cs) (c ∈ cs)); [done|].
      rewrite elem_of_cons. split; [intros [?|?]; [congruence|done]|by right].
Qed.

Lemma replace_absent c new t : contains c t = false → replace c new t = t.
Proof.
  induction t as [|x r IH]; simpl; [done|].
  destruct (decide (x = c)); [done|]. intros H. by rewrite IH.
Qed.

Lemma replace_one_special t c :
  c ∈ special_characters →
  (∀ c', c' ∈ special_characters → contains c' t = true → c' = c) →
  replace c (escaped c) t = escape_spec t.
Proof.
  intros Hc. induction t as [|x r IH]; intros Hone; simpl; [done|].
  assert (replace c (escaped c) r = escape_spec r) as Hr.
  { apply IH. intros c' Hc' Hin. apply Hone; [done|by apply contains_tail]. }
  destruct (decide (x = c)) as [->|Hne].
  - apply is_special_true in Hc. rewrite Hc. simpl. by rewrite Hr.
  - destruct (is_special x) eqn:Hx.
    + apply is_special_true in Hx. destruct Hne. apply Hone; [done|apply contains_head].
    + by rewrite Hr.
Qed.

Lemma escape_token_one_special t c :
  c ∈ special_characters →
  (∀ c', c' ∈ special_characters → contains c' t = true → c' = c) →
  escape_token t = replace c (escaped c) t.
Proof.
  intros Hc Hone. unfold escape_token. rewrite (foldl_one_special t c) by done.
  rewrite bool_decide_eq_true_2 by done. simpl.
  destruct (contains c t) eqn:Hct; [done|]. by rewrite replace_absent.
Qed.

Lemma escape_token_no_special t :
  (∀ c, c ∈ special_characters → contains c t = false) → escape_token t = t.
Proof.
  intros Hnone. rewrite (escape_token_one_special t backslash).
  - apply replace_absent, Hnone. set_solver.
  - set_solver.
  - intros c' Hc' Hin. rewrite Hnone in Hin; done.
Qed.

(** C9: when every id decodes, [decode_tokens_for_plotting] returns a
    list as long as its input; a decoded token without any of the eight
    special characters is returned unchanged; and a decoded token whose
    special characters are all one and the same character [c] comes back
    with every occurrence of [c] replaced by a backslash followed by [c],
    which is the full escaping [escape_spec] of that token. *)
Theorem decode_tokens_for_plotting_one_special
    (input_ids : list Z) (tokenizer : Z → option string) (decoded : list string) :
  mapM tokenizer input_ids = Some decoded →
  ∃ out,
    decode_tokens_for_plotting input_ids tokenizer = Some out ∧
    length out = length input_ids ∧
    ∀ i t, decoded !! i = Some t →
      ((∀ c, c ∈ special_characters → contains c t = false) → out !! i = Some t) ∧
      (∀ c, c ∈ special_characters →
         (∀ c', c' ∈ special_characters → contains c' t = true → c' = c) →
         out !! i = Some (replace c (escaped c) t) ∧
         out !! i = Some (escape_spec t)).
Proof.
  intros Hdec. exists (escape_token <$> decoded).
  rewrite decode_tokens_for_plotting_map, Hdec. split; [done|]. split.
  - rewrite length_fmap. symmetry. by eapply length_mapM.
  - intros i t Hi. rewrite list_lookup_fmap, Hi. simpl. split.
    + intros Hnone. by rewrite escape_token_no_special.
    + intros c Hc Hone. rewrite (escape_token_one_special t c) by done.
      split; [done|]. by rewrite replace_one_special.
Qed.

(** C1 fails on the code: for a token that decodes to an ampersand
    followed by an underscore the result escapes the underscore only,
    while escaping every special character gives two backslashes. *)
Theorem decode_tokens_for_plotting_two_specials :
  decode_tokens_for_plotting [0%Z] (λ _, Some "&_") = Some ["&\_"]
  ∧ escape_spec "&_" = "\&\_"
  ∧ decode_tokens_for_plotting [0%Z] (λ _, Some "&_") ≠ Some [escape_spec "&_"].
Proof. split; [|split]; [reflexivity|reflexivity|discriminate]. Qed.

End decoder.


Lemma decode_tokens_for_plotting_one_special_witness :
  ∃ out,
    decode_tokens_for_plotting [1%Z; 2%Z] sample_tokenizer = Some out ∧
    length out = length [1%Z; 2%Z] ∧
    ∀ i t, ["a_b_"; "hi"] !! i = Some t →
      ((∀ c, c ∈ special_characters → contains c t = false) → out !! i = Some t) ∧
      (∀ c, c ∈ special_characters →
         (∀ c', c' ∈ special_characters → contains c' t = true → c' = c) →
         out !! i = Some (replace c (escaped c) t) ∧
         out !! i = Some (escape_spec t)).
Proof.
  apply (decode_tokens_for_plotting_one_special [1%Z; 2%Z] sample_tokenizer).
  reflexivity.
Defined.

(** ** The luminance test *)

Lemma exact_luminance_lt (r g b : Z) :
  (exact_luminance r g b < 1 # 2)%Q ↔ (299 * r + 587 * g + 114 * b < 127500)%Z.
Proof.
  unfold exact_luminance, Qlt, Qdiv, Qmult, Qplus, Qinv, inject_Z. simpl. lia.
Qed.

Lemma exact_luminance_gt (r g b : Z) :
  (1 # 2 < exact_luminance r g b)%Q ↔ (127500 < 299 * r + 587 * g + 114 * b)%Z.
Proof.
  unfold exact_luminance, Qlt, Qdiv, Qmult, Qplus, Qinv, inject_Z. simpl. lia.
Qed.

(** All 256 * 256 * 256 colours, by computation. *)
Lemma agrees_on_bytes : agrees_on byte_cells = true.
Proof. vm_compute. reflexivity. Qed.

Lemma agrees_on_spec (cells : list (int * float)) r g b :
  agrees_on cells = true → r ∈ cells → g ∈ cells → b ∈ cells →
  cell_agrees r g b = true.
Proof.
  unfold agrees_on. rewrite forallb_forall.
  intros Hall Hr%list_elem_of_In Hg%list_elem_of_In Hb%list_elem_of_In.
  specialize (Hall r Hr). rewrite forallb_forall in Hall.
  specialize (Hall g Hg). rewrite forallb_forall in Hall. by apply Hall.
Qed.

Lemma elem_of_byte_cells (z : Z) :
  (0 ≤ z ≤ 255)%Z → (Uint63.of_Z z, Z2float z) ∈ byte_cells.
Proof.
  intros Hz. unfold byte_cells. apply list_elem_of_fmap. exists z. split; [done|].
  apply elem_of_seqZ. lia.
Qed.

(** The machine integers do not wrap around on the weighted sum. *)
Lemma weighted_sum_to_Z (r g b : Z) :
  (0 ≤ r ≤ 255)%Z → (0 ≤ g ≤ 255)%Z → (0 ≤ b ≤ 255)%Z →
  Uint63.to_Z (299 * Uint63.of_Z r + 587 * Uint63.of_Z g + 114 * Uint63.of_Z b)%uint63
  = (299 * r + 587 * g + 114 * b)%Z.
Proof.
  intros Hr Hg Hb.
  assert (wB = 9223372036854775808%Z) as HwB by reflexivity.
  rewrite !Uint63.add_spec, !Uint63.mul_spec, !Uint63.of_Z_spec.
  change (Uint63.to_Z 299) with 299%Z. change (Uint63.to_Z 587) with 587%Z.
  change (Uint63.to_Z 114) with 114%Z.
  rewrite HwB.
  rewrite (Z.mod_small r), (Z.mod_small g), (Z.mod_small b) by lia.
  rewrite (Z.mod_small (299 * r)), (Z.mod_small (587 * g)), (Z.mod_small (114 * b)) by lia.
  rewrite (Z.mod_small (299 * r + 587 * g)) by lia.
  apply Z.mod_small. lia.
Qed.

Lemma text_color_cases (r g b : Z) :
  text_color r g b = "white" ∧ (luminance r g b <? 0.5)%float = true
  ∨ text_color r g b = "black" ∧ (luminance r g b <? 0.5)%float = false.
Proof. unfold text_color. destruct (luminance r g b <? 0.5)%float; [by left|by right]. Qed.

(** On channels from 0 to 255 the rounding of the computed luminance
    never takes it across the threshold: white text means an exact
    luminance of at most one half, black text one of at least one half. *)
Lemma text_color_bytes (r g b : Z) :
  (0 ≤ r ≤ 255)%Z → (0 ≤ g ≤ 255)%Z → (0 ≤ b ≤ 255)%Z →
  (text_color r g b = "white" → (299 * r + 587 * g + 114 * b ≤ 127500)%Z)
  ∧ (text_color r g b = "black" → (127500 ≤ 299 * r + 587 * g + 114 * b)%Z).
Proof.
  intros Hr Hg Hb.
  pose proof (agrees_on_spec byte_cells _ _ _ agrees_on_bytes
                (elem_of_byte_cells r Hr) (elem_of_byte_cells g Hg)
                (elem_of_byte_cells b Hb)) as Hcell.
  unfold cell_agrees in Hcell. cbn [fst snd] in Hcell. unfold text_color.
  change (luminance r g b) with (luminance_of (Z2float r) (Z2float g) (Z2float b)).
  destruct (luminance_of (Z2float r) (Z2float g) (Z2float b) <? 0.5)%float.
  - apply Uint63.leb_spec in Hcell. rewrite weighted_sum_to_Z in Hcell by done.
    split; [done|discriminate].
  - apply Uint63.leb_spec in Hcell. rewrite weighted_sum_to_Z in Hcell by done.
    split; [discriminate|done].
Qed.

Lemma text_color_exact (r g b : Z) :
  (0 ≤ r ≤ 255)%Z → (0 ≤ g ≤ 255)%Z → (0 ≤ b ≤ 255)%Z →
  ((exact_luminance r g b < 1 # 2)%Q → text_color r g b = "white")
  ∧ ((1 # 2 < exact_luminance r g b)%Q → text_color r g b = "black").
Proof.
  intros Hr Hg Hb. rewrite exact_luminance_lt, exact_luminance_gt.
  destruct (text_color_bytes r g b Hr Hg Hb) as [Hwhite Hblack].
  destruct (text_color_cases r g b) as [[Hc _]|[Hc _]].
  - split; [done|]. specialize (Hwhite Hc). lia.
  - split; [|done]. specialize (Hblack Hc). lia.
Qed.

(** ** [jupyter_heatmap] *)

Section heatmap.
Context (apply_colormap : Q → string → result rgba).
Implicit Types (tokens : list string) (rs : relevances) (vs : list Q) (cmap html : string).


Lemma render_inv cmap pairs html_parts parts :
  render apply_colormap cmap pairs html_parts = Ok parts →
  ∃ elements, parts = html_parts ++ elements ∧ Forall2 (rendered apply_colormap cmap) pairs elements.
Proof.
  revert html_parts. induction pairs as [|[token relevance] pairs IH]; intros acc; simpl.
  - intros [= <-]. exists []. by rewrite app_nil_r.
  - destruct (channels apply_colormap relevance cmap) as [[[r g] b]|e] eqn:Hch; simpl; [|done].
    intros (elements & -> & Hall)%IH.
    exists (styled_element r g b (text_color r g b) token :: elements).
    split; [by rewrite <- app_assoc|].
    constructor; [|done]. exists r, g, b. done.
Qed.

Lemma render_total cmap pairs html_parts :
  (∀ pair, pair ∈ pairs → ∃ rgb, channels apply_colormap pair.2 cmap = Ok rgb) →
  ∃ parts, render apply_colormap cmap pairs html_parts = Ok parts.
Proof.
  revert html_parts. induction pairs as [|[token relevance] pairs IH]; intros acc Hok; simpl.
  - by eexists.
  - destruct (Hok (token, relevance)) as [[[r g] b] Hch]; [by left|].
    simpl in Hch. rewrite Hch. simpl. apply IH. intros pair Hin. apply Hok. by right.
Qed.

Lemma foldl_Qmin_lower (lo v : Q) vs :
  (lo <= foldl Qmin v vs)%Q ↔ (lo <= v)%Q ∧ Forall (λ x, (lo <= x)%Q) vs.
Proof.
  revert v. induction vs as [|x vs IH]; intros v; simpl.
  - split; [by intros ?; split|by intros [? _]].
  - rewrite IH, Q.min_glb_iff, Forall_cons. tauto.
Qed.

Lemma foldl_Qmax_upper (hi v : Q) vs :
  (foldl Qmax v vs <= hi)%Q ↔ (v <= hi)%Q ∧ Forall (λ x, (x <= hi)%Q) vs.
Proof.
  revert v. induction vs as [|x vs IH]; intros v; simpl.
  - split; [by intros ?; split|by intros [? _]].
  - rewrite IH, Q.max_lub_iff, Forall_cons. tauto.
Qed.


Lemma check_range_list vs : check_range (PyList vs) = Ok ().
Proof. done. Qed.

Lemma check_range_empty_array :
  check_range (NdArray []) =
    Raise (ValueError "zero-size array to reduction operation minimum which has no identity").
Proof. done. Qed.

Lemma check_range_array_ok v vs :
  Forall in_range (v :: vs) → check_range (NdArray (v :: vs)) = Ok ().
Proof.
  intros Hall. unfold check_range. simpl.
  assert (Qle_bool (-1) (foldl Qmin v vs) = true) as ->.
  { apply Qle_bool_iff, foldl_Qmin_lower.
    apply (proj1 (Forall_cons (λ x, (-1 <= x)%Q) v vs)).
    eapply Forall_impl; [exact Hall|]. by intros x [? ?]. }
  simpl.
  assert (Qle_bool (foldl Qmax v vs) 1 = true) as ->; [|done].
  apply Qle_bool_iff, foldl_Qmax_upper.
  apply (proj1 (Forall_cons (λ x, (x <= 1)%Q) v vs)).
  eapply Forall_impl; [exact Hall|]. by intros x [? ?].
Qed.

Lemma check_range_array_bad v vs :
  ¬ Forall in_range (v :: vs) →
  check_range (NdArray (v :: vs)) = Raise (AssertionError range_message).
Proof.
  intros Hbad. unfold check_range. simpl.
  destruct (Qle_bool (-1) (foldl Qmin v vs)) eqn:Hlo; simpl; [|done].
  destruct (Qle_bool (foldl Qmax v vs) 1) eqn:Hhi; simpl; [|done].
  destruct Hbad.
  apply Qle_bool_iff, foldl_Qmin_lower in Hlo.
  apply (proj2 (Forall_cons (λ x, (-1 <= x)%Q) v vs)) in Hlo.
  apply Qle_bool_iff, foldl_Qmax_upper in Hhi.
  apply (proj2 (Forall_cons (λ x, (x <= 1)%Q) v vs)) in Hhi.
  rewrite Forall_forall in Hlo, Hhi. apply Forall_forall. intros x Hx.
  split; [by apply Hlo|by apply Hhi].
Qed.

#[local] Instance in_range_dec (v : Q) : Decision (in_range v).
Proof.
  unfold in_range.
  destruct (Qlt_le_dec v (-1)) as [Hlt|Hle].
  - right. intros [H _]. by apply Qle_not_lt in H.
  - destruct (Qlt_le_dec 1 v) as [Hlt|Hle'].
    + right. intros [_ H]. by apply Qle_not_lt in H.
    + by left.
Qed.

Lemma jupyter_heatmap_inv tokens rs cmap html :
  jupyter_heatmap apply_colormap tokens rs cmap = Ok html →
  length tokens = length (values rs) ∧ check_range rs = Ok () ∧
  ∃ elements,
    html = join (html_open :: elements ++ [html_close]) ∧
    Forall2 (rendered apply_colormap cmap) (zip tokens (values rs)) elements.
Proof.
  unfold jupyter_heatmap.
  destruct (length tokens =? length (values rs))%nat eqn:Hlen; simpl; [|done].
  apply Nat.eqb_eq in Hlen.
  destruct (check_range rs) as [[]|e]; simpl; [|done].
  destruct (render _ _ _ _) as [parts|e] eqn:Hrender; simpl; [|done].
  intros [= <-]. apply render_inv in Hrender as (elements & -> & Hall).
  split; [done|]. split; [done|]. exists elements. done.
Qed.

Lemma jupyter_heatmap_renders tokens rs cmap :
  length tokens = length (values rs) →
  check_range rs = Ok () →
  (∀ v, v ∈ values rs → ∃ rgb, channels apply_colormap v cmap = Ok rgb) →
  ∃ elements,
    jupyter_heatmap apply_colormap tokens rs cmap
      = Ok (join (html_open :: elements ++ [html_close])) ∧
    length elements = length tokens ∧
    Forall2 (rendered apply_colormap cmap) (zip tokens (values rs)) elements.
Proof.
  intros Hlen Hrange Hcm. unfold jupyter_heatmap.
  rewrite Hlen, Nat.eqb_refl, Hrange. simpl.
  destruct (render_total cmap (zip tokens (values rs)) [html_open]) as [parts Hparts].
  { intros [token v] Hin. apply Hcm. by eapply elem_of_zip_r. }
  rewrite Hparts. simpl.
  apply render_inv in Hparts as (elements & -> & Hall).
  exists elements. split; [done|]. split; [|done].
  apply Forall2_length in Hall. rewrite length_zip in Hall. lia.
Qed.

Lemma jupyter_heatmap_length_mismatch tokens rs cmap :
  length tokens ≠ length (values rs) →
  jupyter_heatmap apply_colormap tokens rs cmap = Raise (AssertionError length_message).
Proof.
  intros Hlen. unfold jupyter_heatmap.
  by rewrite (proj2 (Nat.eqb_neq _ _) Hlen).
Qed.

(** The part of the first testable property that does hold: in-range
    relevances given as a plain list, or as an array that is not empty,
    are rendered one element per token, in input order. *)
Lemma jupyter_heatmap_in_range tokens rs cmap :
  length tokens = length (values rs) →
  Forall in_range (values rs) →
  hasattr_min rs = false ∨ values rs ≠ [] →
  (∀ v, v ∈ values rs → ∃ rgb, channels apply_colormap v cmap = Ok rgb) →
  ∃ elements,
    jupyter_heatmap apply_colormap tokens rs cmap
      = Ok (join (html_open :: elements ++ [html_close])) ∧
    length elements = length tokens ∧
    Forall2 (rendered apply_colormap cmap) (zip tokens (values rs)) elements.
Proof.
  intros Hlen Hall Hshape Hcm. apply jupyter_heatmap_renders; [done| |done].
  destruct rs as [vs|[|v vs]]; simpl in *.
  - done.
  - by destruct Hshape.
  - by apply check_range_array_ok.
Qed.

(** C4, amended: every element of a rendered heatmap is the span of
    its token with the text colour white or black, white exactly when the
    luminance as the code computes it, in binary64, compares below 0.5;
    for a background with channels from 0 to 255 the text is white whenever
    the luminance (0.299 R + 0.587 G + 0.114 B) / 255 is below one half and
    black whenever it is above, and where it is one half the rounding of
    the computed value decides. *)
Theorem jupyter_heatmap_text_color tokens rs cmap html :
  jupyter_heatmap apply_colormap tokens rs cmap = Ok html →
  ∃ elements,
    html = join (html_open :: elements ++ [html_close]) ∧
    Forall2 (λ pair element, ∃ r g b color,
        channels apply_colormap pair.2 cmap = Ok (r, g, b) ∧
        element
        = "<span style=" +:+ dquote +:+ "background-color: rgb("
          +:+ pretty r +:+ "," +:+ pretty g +:+ "," +:+ pretty b +:+ "); "
          +:+ "color: " +:+ color +:+ "; padding: 2px 4px; margin: 1px; "
          +:+ "display: inline-block; border-radius: 2px;" +:+ dquote +:+ ">"
          +:+ pair.1 +:+ "</span>" ∧
        (color = "white" ∨ color = "black") ∧
        (color = "white" ↔ (luminance r g b <? 0.5)%float = true) ∧
        ((0 ≤ r ≤ 255)%Z → (0 ≤ g ≤ 255)%Z → (0 ≤ b ≤ 255)%Z →
           ((exact_luminance r g b < 1 # 2)%Q → color = "white") ∧
           ((1 # 2 < exact_luminance r g b)%Q → color = "black")))
      (zip tokens (values rs)) elements.
Proof.
  intros (_ & _ & elements & -> & Hall)%jupyter_heatmap_inv.
  exists elements. split; [done|].
  eapply Forall2_impl; [exact Hall|].
  intros pair element (r & g & b & Hch & ->).
  exists r, g, b, (text_color r g b). split; [done|]. split; [done|].
  split; [|split; [|by apply text_color_exact]].
  - destruct (text_color_cases r g b) as [[-> _]|[-> _]]; [by left|by right].
  - destruct (text_color_cases r g b) as [[-> ->]|[-> ->]]; split; done.
Qed.

(** C5 fails on the code: for no tokens and an empty numeric array the
    two lengths are equal and no relevance is out of range, yet the call
    raises from [min()], where the same input as a plain list renders the
    empty frame. *)
Theorem jupyter_heatmap_empty_array cmap :
  jupyter_heatmap apply_colormap [] (NdArray []) cmap
    = Raise (ValueError
        "zero-size array to reduction operation minimum which has no identity")
  ∧ jupyter_heatmap apply_colormap [] (PyList []) cmap
    = Ok (join [html_open; html_close]).
Proof. split; reflexivity. Qed.

(** C6: for inputs of equal length, on a colormap that answers for every
    relevance, the range assertion fails exactly when [relevances] has a
    [min] attribute and holds some value outside the interval from -1 to
    1; without the attribute every value is accepted and the heatmap is
    rendered, one element per token. *)
Theorem jupyter_heatmap_range_check tokens rs cmap :
  length tokens = length (values rs) →
  (∀ v, v ∈ values rs → ∃ rgb, channels apply_colormap v cmap = Ok rgb) →
  (jupyter_heatmap apply_colormap tokens rs cmap = Raise (AssertionError range_message)
     ↔ hasattr_min rs = true ∧ ∃ v, v ∈ values rs ∧ ¬ in_range v)
  ∧ (hasattr_min rs = false →
       ∃ elements,
         jupyter_heatmap apply_colormap tokens rs cmap
           = Ok (join (html_open :: elements ++ [html_close])) ∧
         length elements = length tokens ∧
         Forall2 (rendered apply_colormap cmap) (zip tokens (values rs)) elements).
Proof.
  intros Hlen Hcm. split.
  - destruct rs as [vs|[|v vs]].
    + destruct (jupyter_heatmap_renders tokens (PyList vs) cmap Hlen eq_refl Hcm)
        as (elements & -> & _).
      split; [done|]. by intros [? _].
    + unfold jupyter_heatmap. simpl in Hlen. rewrite Hlen. simpl.
      split; [done|]. intros [_ (v & Hv & _)]. by apply elem_of_nil in Hv.
    + destruct (decide (Forall in_range (v :: vs))) as [Hall|Hbad].
      * destruct (jupyter_heatmap_renders tokens (NdArray (v :: vs)) cmap Hlen
                    (check_range_array_ok v vs Hall) Hcm) as (elements & -> & _).
        split; [done|]. intros [_ (x & Hx & Hout)]. destruct Hout.
        rewrite Forall_forall in Hall. by apply Hall.
      * split.
        -- intros _. split; [done|].
           apply (not_Forall_Exists _) in Hbad. apply Exists_exists in Hbad.
           destruct Hbad as (x & Hx & Hout). by exists x.
        -- intros _. unfold jupyter_heatmap. rewrite Hlen, Nat.eqb_refl. simpl.
           by rewrite (check_range_array_bad v vs Hbad).
  - intros Hattr. apply jupyter_heatmap_renders; [done| |done].
    destruct rs; [done|discriminate].
Qed.

End heatmap.


(** Either side of the threshold. *)
Example text_color_below :
  (exact_luminance 0 204 67 < 1 # 2)%Q ∧ text_color 0 204 67 = "white".
Proof. split; [reflexivity|vm_compute; reflexivity]. Qed.

Example text_color_above :
  (1 # 2 < exact_luminance 0 204 69)%Q ∧ text_color 0 204 69 = "black".
Proof. split; [reflexivity|vm_compute; reflexivity]. Qed.

(** Where the exact luminance is one half, the rounded sum decides: for
    this triple it lands just below 0.5. *)
Example text_color_tie :
  (exact_luminance 0 204 68 == 1 # 2)%Q
  ∧ luminance 0 204 68 = 0x1.fffffffffffffp-2%float
  ∧ text_color 0 204 68 = "white".
Proof. split; [reflexivity|split; vm_compute; reflexivity]. Qed.


(** C4 as stated fails where the luminance is one half: the background
    rgb(0,204,68) has luminance (0.299 * 0 + 0.587 * 204 + 0.114 * 68) / 255
    = 1/2, which is not below 0.5, and its token is rendered with white
    text. *)
Lemma jupyter_heatmap_white_at_half :
  channels sample_colormap 0 "bwr" = Ok (0, 204, 68)%Z ∧
  (exact_luminance 0 204 68 == 1 # 2)%Q ∧
  ¬ (exact_luminance 0 204 68 < 1 # 2)%Q ∧
  jupyter_heatmap sample_colormap ["a"] (NdArray [0%Q]) "bwr"
  = Ok (join [html_open;
              "<span style=" +:+ dquote +:+ "background-color: rgb(0,204,68); "
              +:+ "color: white; padding: 2px 4px; margin: 1px; "
              +:+ "display: inline-block; border-radius: 2px;" +:+ dquote +:+ ">"
              +:+ "a" +:+ "</span>";
              html_close]).
Proof.
  split; [vm_compute; reflexivity|]. split; [reflexivity|].
  split; [by intros ?|]. vm_compute. reflexivity.
Qed.

Lemma jupyter_heatmap_text_color_witness :
  ∃ elements,
    join [html_open;
          styled_element 0 0 0 "white" "a"; styled_element 255 255 255 "black" "b";
          html_close]
    = join (html_open :: elements ++ [html_close]) ∧
    Forall2 (λ pair element, ∃ r g b color,
        channels two_tone_colormap pair.2 "bwr" = Ok (r, g, b) ∧
        element
        = "<span style=" +:+ dquote +:+ "background-color: rgb("
          +:+ pretty r +:+ "," +:+ pretty g +:+ "," +:+ pretty b +:+ "); "
          +:+ "color: " +:+ color +:+ "; padding: 2px 4px; margin: 1px; "
          +:+ "display: inline-block; border-radius: 2px;" +:+ dquote +:+ ">"
          +:+ pair.1 +:+ "</span>" ∧
        (color = "white" ∨ color = "black") ∧
        (color = "white" ↔ (luminance r g b <? 0.5)%float = true) ∧
        ((0 ≤ r ≤ 255)%Z → (0 ≤ g ≤ 255)%Z → (0 ≤ b ≤ 255)%Z →
           ((exact_luminance r g b < 1 # 2)%Q → color = "white") ∧
           ((1 # 2 < exact_luminance r g b)%Q → color = "black")))
      (zip ["a"; "b"] (values (NdArray [-1; 1]%Q))) elements.
Proof.
  apply (jupyter_heatmap_text_color two_tone_colormap ["a"; "b"] (NdArray [-1; 1]%Q) "bwr").
  vm_compute. reflexivity.
Defined.

Lemma jupyter_heatmap_range_check_witness :
  (jupyter_heatmap sample_colormap ["a"] (NdArray [3 # 2]%Q) "bwr"
     = Raise (AssertionError range_message)
     ↔ hasattr_min (NdArray [3 # 2]%Q) = true
       ∧ ∃ v, v ∈ values (NdArray [3 # 2]%Q) ∧ ¬ in_range v)
  ∧ (hasattr_min (NdArray [3 # 2]%Q) = false →
       ∃ elements,
         jupyter_heatmap sample_colormap ["a"] (NdArray [3 # 2]%Q) "bwr"
           = Ok (join (html_open :: elements ++ [html_close])) ∧
         length elements = length ["a"] ∧
         Forall2 (rendered sample_colormap "bwr")
           (zip ["a"] (values (NdArray [3 # 2]%Q))) elements).
Proof.
  apply (jupyter_heatmap_range_check sample_colormap ["a"] (NdArray [3 # 2]%Q) "bwr").
  - reflexivity.
  - intros v _. eexists. vm_compute. reflexivity.
Defined.

(** ** [plot_atlas] *)

Section atlas.
Context {K : Type} `{EqDecision K}.
Implicit Types (rs : list (@row K)) (r a b : @row K) (vs : list K) (v : K).
Implicit Types (frame : @DataFrame K) (σ : gmap loc (@DataFrame K)) (df : loc).

(** *** Distinct values and their sorted list *)

Lemma elem_of_unique_from (seen vs : list K) v :
  v ∈ foldl (λ seen v, if decide (v ∈ seen) then seen else seen ++ [v]) seen vs
  ↔ v ∈ seen ∨ v ∈ vs.
Proof.
  revert seen. induction vs as [|x vs IH]; intros seen; simpl.
  - rewrite elem_of_nil. tauto.
  - rewrite IH, elem_of_cons. destruct (decide (x ∈ seen)) as [Hin|Hout].
    + split; [tauto|]. intros [?|[->|?]]; tauto.
    + rewrite elem_of_app, list_elem_of_singleton. tauto.
Qed.

Lemma NoDup_unique_from (seen vs : list K) :
  NoDup seen →
  NoDup (foldl (λ seen v, if decide (v ∈ seen) then seen else seen ++ [v]) seen vs).
Proof.
  revert seen. induction vs as [|x vs IH]; intros seen Hnd; simpl; [done|].
  apply IH. destruct (decide (x ∈ seen)); [done|].
  apply NoDup_app. split; [done|]. split; [|apply NoDup_singleton].
  intros y Hy ->%list_elem_of_singleton. done.
Qed.

Lemma elem_of_unique v vs : v ∈ unique vs ↔ v ∈ vs.
Proof. unfold unique. rewrite elem_of_unique_from, elem_of_nil. tauto. Qed.

Lemma NoDup_unique vs : NoDup (unique vs).
Proof. apply NoDup_unique_from, NoDup_nil_2. Qed.

Context (key_leb : K → K → bool).

Lemma insert_key_perm v vs : insert_key key_leb v vs ≡ₚ v :: vs.
Proof.
  induction vs as [|x vs IH]; simpl; [done|].
  destruct (key_leb v x); [done|]. rewrite IH. apply Permutation_swap.
Qed.

Lemma sorted_perm vs : sorted key_leb vs ≡ₚ vs.
Proof.
  induction vs as [|x vs IH]; simpl; [done|]. by rewrite insert_key_perm, IH.
Qed.

Lemma elem_of_sorted_unique v vs : v ∈ sorted key_leb (unique vs) ↔ v ∈ vs.
Proof. by rewrite sorted_perm, elem_of_unique. Qed.

Lemma NoDup_sorted_unique vs : NoDup (sorted key_leb (unique vs)).
Proof. rewrite sorted_perm. apply NoDup_unique. Qed.

(** *** The order of [nlargest] *)

Lemma larger_asym (x y : option Q) : larger x y = true → larger y x = false.
Proof.
  destruct x as [x|], y as [y|]; simpl; try done.
  intros Hxy. apply negb_true_iff in Hxy. apply negb_false_iff, Qle_bool_iff.
  destruct (Qlt_le_dec y x) as [Hlt|Hle]; [by apply Qlt_le_weak|].
  apply Qle_bool_iff in Hle. congruence.
Qed.

Lemma larger_trans (x y z : option Q) :
  larger y x = false → larger z y = false → larger z x = false.
Proof.
  destruct x as [x|], y as [y|], z as [z|]; simpl; try done.
  intros Hyx%negb_false_iff%Qle_bool_iff Hzy%negb_false_iff%Qle_bool_iff.
  apply negb_false_iff, Qle_bool_iff. by eapply Qle_trans.
Qed.

Lemma insert_row_perm r rs : insert_row r rs ≡ₚ r :: rs.
Proof.
  induction rs as [|x rs IH]; simpl; [done|].
  destruct (larger _ _); [|done]. rewrite IH. apply Permutation_swap.
Qed.

Lemma sort_descending_perm rs : sort_descending rs ≡ₚ rs.
Proof.
  induction rs as [|x rs IH]; simpl; [done|]. by rewrite insert_row_perm, IH.
Qed.

Lemma insert_row_sorted r rs :
  StronglySorted no_smaller rs → StronglySorted no_smaller (insert_row r rs).
Proof.
  induction 1 as [|x rs Hsorted IH Hall]; simpl.
  - repeat constructor.
  - destruct (larger (abs_score_temp x) (abs_score_temp r)) eqn:Hx.
    + constructor; [done|]. rewrite insert_row_perm. constructor; [|done].
      by apply larger_asym.
    + constructor; [by constructor|]. constructor; [done|].
      eapply Forall_impl; [exact Hall|]. intros y Hy.
      unfold no_smaller in *. by eapply larger_trans.
Qed.

Lemma sort_descending_sorted rs : StronglySorted no_smaller (sort_descending rs).
Proof.
  induction rs as [|x rs IH]; simpl; [constructor|]. by apply insert_row_sorted.
Qed.

Lemma StronglySorted_take_drop {A} (R : relation A) (n : nat) (l : list A) (x y : A) :
  StronglySorted R l → x ∈ take n l → y ∈ drop n l → R x y.
Proof.
  intros Hsorted. revert n. induction Hsorted as [|z l Hsorted IH Hall]; intros n.
  - rewrite take_nil. by intros ?%elem_of_nil.
  - destruct n as [|n]; simpl; [by intros ?%elem_of_nil|].
    intros [->|Hx]%elem_of_cons Hy; [|by eapply IH].
    rewrite Forall_forall in Hall. apply Hall. by eapply subseteq_drop.
Qed.

Lemma nlargest_spec (n : Z) rs :
  rs ≡ₚ nlargest n rs ++ drop (Z.to_nat n) (sort_descending rs)
  ∧ length (nlargest n rs) = Z.to_nat n `min` length rs
  ∧ ∀ a b, a ∈ nlargest n rs → b ∈ drop (Z.to_nat n) (sort_descending rs) →
           no_smaller a b.
Proof.
  unfold nlargest. split; [|split].
  - by rewrite take_drop, sort_descending_perm.
  - by rewrite length_take, sort_descending_perm.
  - intros a b. apply StronglySorted_take_drop, sort_descending_sorted.
Qed.

Lemma nlargest_subseteq (n : Z) rs : nlargest n rs ⊆ rs.
Proof.
  unfold nlargest. intros r Hr%subseteq_take. by rewrite sort_descending_perm in Hr.
Qed.

(** *** Grouping *)

Lemma filter_all {A} (P : A → Prop) `{!∀ x, Decision (P x)} (l : list A) :
  Forall P l → filter P l = l.
Proof.
  induction 1 as [|x l Hx Hall IH]; [done|]. by rewrite filter_cons_True, IH.
Qed.

Lemma filter_none {A} (P : A → Prop) `{!∀ x, Decision (P x)} (l : list A) :
  Forall (λ x, ¬ P x) l → filter P l = [].
Proof.
  induction 1 as [|x l Hx Hall IH]; [done|]. by rewrite filter_cons_False.
Qed.

Lemma filter_concat_groups (g : K → list row) (keys : list K) v :
  NoDup keys →
  (∀ key r, r ∈ g key → color r = key) →
  filter (λ r, color r = v) (concat (g <$> keys))
  = if decide (v ∈ keys) then g v else [].
Proof.
  intros Hnd Hg. induction Hnd as [|key keys Hout Hnd IH]; [done|].
  rewrite fmap_cons. cbn [concat]. rewrite filter_app, IH. destruct (decide (key = v)) as [->|Hne].
  - rewrite (decide_True (P := v ∈ v :: keys)) by by left.
    rewrite decide_False by done. rewrite app_nil_r.
    apply filter_all, Forall_forall. intros r Hr. by eapply Hg.
  - rewrite filter_none.
    2:{ apply Forall_forall. intros r Hr Hv. apply Hne. by rewrite <- (Hg key r Hr). }
    simpl. destruct (decide (v ∈ keys)) as [Hin|Hnin].
    + rewrite decide_True; [done|by right].
    + rewrite decide_False; [done|]. intros [->|?]%elem_of_cons; done.
Qed.

Lemma fmap_eq_inv {A B} (g h : A → B) (l : list A) x :
  g <$> l = h <$> l → x ∈ l → g x = h x.
Proof.
  induction l as [|y l IH]; [by intros _ ?%elem_of_nil|].
  rewrite !fmap_cons. intros [= Hy Hl] [->|Hx]%elem_of_cons; [done|by apply IH].
Qed.

Context (isna : K → bool).

Lemma elem_of_dropna v vs : v ∈ dropna isna vs ↔ isna v = false ∧ v ∈ vs.
Proof. unfold dropna. by rewrite list_elem_of_filter. Qed.

(** The group keys are the colours of the frame that are not missing. *)
Lemma elem_of_group_keys v rs :
  v ∈ sorted key_leb (unique (dropna isna (color <$> rs)))
  ↔ isna v = false ∧ v ∈ color <$> rs.
Proof. by rewrite elem_of_sorted_unique, elem_of_dropna. Qed.

Lemma filter_color_dropped rs v :
  isna v = true →
  filter (λ r, color r = v) (filter (λ r, isna (color r) = false) rs) = [].
Proof.
  intros Hv. apply filter_none, Forall_forall.
  intros r [Hr _]%list_elem_of_filter Hc. congruence.
Qed.

Lemma filter_color_kept rs v :
  isna v = false →
  filter (λ r, color r = v) (filter (λ r, isna (color r) = false) rs)
  = filter (λ r, color r = v) rs.
Proof.
  intros Hv. induction rs as [|r rs IH]; [done|].
  destruct (decide (color r = v)) as [Hc|Hc].
  - rewrite (filter_cons_True (λ r, isna (color r) = false)) by congruence.
    rewrite !(filter_cons_True (λ r, color r = v)) by done. by rewrite IH.
  - rewrite (filter_cons_False (λ r, color r = v) _ rs) by done.
    destruct (decide (isna (color r) = false)).
    + rewrite (filter_cons_True (λ r, isna (color r) = false)) by done.
      by rewrite filter_cons_False.
    + by rewrite (filter_cons_False (λ r, isna (color r) = false)).
Qed.

(** A group function that only selects rows commutes with taking the
    rows of one colour; of a missing colour no row is left. *)
Lemma filter_groupby_apply (f : list row → list row) rs v :
  (∀ l, f l ⊆ l) →
  filter (λ r, color r = v) (groupby_apply key_leb isna f rs)
  = if isna v then [] else f (filter (λ r, color r = v) rs).
Proof.
  intros Hf.
  assert (v ∉ color <$> rs → filter (λ r, color r = v) rs = []) as Hempty.
  { intros Hout. apply filter_none, Forall_forall. intros r Hr Hv. apply Hout.
    apply list_elem_of_fmap. by exists r. }
  assert (f [] = []) as Hnil by apply list_nil_subseteq, Hf.
  unfold groupby_apply. destruct (decide _) as [Hsame|_].
  - destruct (isna v) eqn:Hv; [by apply filter_color_dropped|].
    rewrite filter_color_kept by done.
    destruct (decide (v ∈ color <$> rs)) as [Hin|Hout].
    + rewrite <- list_fmap_compose in Hsame. symmetry.
      apply (fmap_eq_inv _ _ _ v Hsame). by apply elem_of_group_keys.
    + rewrite Hempty by done. by rewrite Hnil.
  - rewrite <- list_fmap_compose.
    rewrite (filter_concat_groups (f ∘ (λ key, filter (λ r, color r = key) rs))).
    + unfold compose. destruct (decide _) as [Hin|Hout].
      * apply elem_of_group_keys in Hin as [-> _]. done.
      * destruct (isna v) eqn:Hv; [done|].
        rewrite elem_of_group_keys in Hout. rewrite Hempty; [by rewrite Hnil|].
        intros Hin. apply Hout. by split.
    + apply NoDup_sorted_unique.
    + intros key r Hr%Hf. by apply list_elem_of_filter in Hr as [? _].
Qed.

End atlas.

Section atlas_run.
Context {K : Type} `{EqDecision K} (key_leb : K → K → bool) (isna : K → bool).
Implicit Types (frame : @DataFrame K) (σ : gmap loc (@DataFrame K)) (df : loc).

Lemma bind_run {A B} (m : cmd A) (k : A → cmd B) σ a σ' :
  m σ = Some (a, σ') → (m ≫= k) σ = k a σ'.
Proof. intros Hm. unfold mbind, cmd_bind. by rewrite Hm. Qed.

Lemma load_run σ l frame : σ !! l = Some frame → load l σ = Some (frame, σ).
Proof. intros Hl. unfold load. by rewrite Hl. Qed.

Lemma update_run σ l frame f :
  σ !! l = Some frame → update l f σ = Some ((), <[l := f frame]> σ).
Proof. intros Hl. unfold update. by rewrite Hl. Qed.

Lemma copy_run σ l frame :
  σ !! l = Some frame → copy l σ = Some (fresh (dom σ), <[fresh (dom σ) := frame]> σ).
Proof. intros Hl. unfold copy. by rewrite (bind_run _ _ _ _ _ (load_run _ _ _ Hl)). Qed.

Lemma plot_atlas_run σ df color_col top_k cmap_N frame :
  σ !! df = Some frame →
  ∃ fig σ',
    plot_atlas key_leb isna df color_col top_k cmap_N σ = Some (fig, σ')
    ∧ data fig = filtered key_leb isna frame top_k
    ∧ legend fig = (if color_mode isna frame
                    then Some (legend_entries key_leb cmap_N (filtered key_leb isna frame top_k))
                    else None)
    ∧ ticks fig = axis_ticks frame
    ∧ (∀ l, is_Some (σ !! l) → σ' !! l = σ !! l)
    ∧ σ !! fresh (dom σ) = None
    ∧ σ' !! fresh (dom σ) = Some (set_abs_score_temp frame).
Proof.
  intros Hdf. unfold plot_atlas.
  rewrite (bind_run _ _ _ _ _ (load_run _ _ _ Hdf)).
  rewrite (bind_run _ _ _ _ _ (copy_run _ _ _ Hdf)).
  set (l1 := fresh (dom σ)).
  assert (σ !! l1 = None) as Hl1 by apply not_elem_of_dom, is_fresh.
  set (σ1 := <[l1 := frame]> σ).
  assert (σ1 !! l1 = Some frame) as H1 by apply lookup_insert_eq.
  rewrite (bind_run _ _ _ _ _ (update_run _ _ _ set_abs_score_temp H1)).
  set (σ2 := <[l1 := set_abs_score_temp frame]> σ1).
  assert (σ2 !! l1 = Some (set_abs_score_temp frame)) as H2 by apply lookup_insert_eq.
  assert (∀ l, is_Some (σ !! l) → σ2 !! l = σ !! l) as Hkeep2.
  { intros l [x Hl]. unfold σ2, σ1. rewrite !lookup_insert_ne; [done|congruence..]. }
  assert (σ2 !! df = Some frame) as Hdf2 by (rewrite Hkeep2; done).
  destruct top_k as [k|].
  - unfold mbind, cmd_bind at 1. unfold mbind, cmd_bind at 1.
    rewrite (load_run _ _ _ H2).
    set (l2 := fresh (dom σ2)).
    assert (σ2 !! l2 = None) as Hl2 by apply not_elem_of_dom, is_fresh.
    assert (∀ plot l, is_Some (σ !! l) → <[l2 := plot]> σ2 !! l = σ !! l) as Hkeep3.
    { intros plot l Hl. rewrite lookup_insert_ne; [by apply Hkeep2|].
      intros <-. rewrite Hkeep2 in Hl2 by done. rewrite Hl2 in Hl. by destruct Hl. }
    unfold filtered.
    destruct (color_mode isna frame) eqn:Hmode;
      unfold cmd_bind, new, mret, cmd_ret; fold l2; cbn beta iota;
      unfold load; rewrite lookup_insert_eq; cbn [fmap option_fmap option_map];
      rewrite Hkeep3, Hdf by done; cbn [fmap option_fmap option_map];
      (eexists _, _; split; [reflexivity|]; split; [done|];
       split; [done|]; split; [done|]; split; [by apply Hkeep3|];
       split; [done|];
       rewrite lookup_insert_ne; [done|];
       intros Heq; fold l1 in Heq; rewrite Heq in Hl2; congruence).
  - unfold mbind, mret, cmd_bind, cmd_ret, load. cbn beta iota.
    rewrite H2. cbn [fmap option_fmap option_map]. rewrite Hdf2.
    cbn [fmap option_fmap option_map].
    eexists _, _. split; [reflexivity|]. unfold filtered.
    by destruct (color_mode isna frame).
Qed.
End atlas_run.

Section atlas_claims.
Context {K : Type} `{EqDecision K} (key_leb : K → K → bool) (isna : K → bool).
Implicit Types (rs : list (@row K)) (r a b : @row K) (vs : list K) (v : K).
Implicit Types (frame : @DataFrame K) (σ : gmap loc (@DataFrame K)) (df : loc).

(** *** Ticks *)

Lemma elem_of_arange (start stop step x : Z) :
  (0 < step)%Z →
  x ∈ arange start stop step
  ↔ (start ≤ x < stop)%Z ∧ ((x - start) mod step = 0)%Z.
Proof.
  intros Hstep. unfold arange. rewrite list_elem_of_fmap.
  set (q := ((stop - start + step - 1) / step)%Z).
  assert (q * step ≤ stop - start + step - 1)%Z as Hq1.
  { rewrite Z.mul_comm. apply Z.mul_div_le. lia. }
  assert (stop - start + step - 1 < (q + 1) * step)%Z as Hq2.
  { pose proof (Z.mod_pos_bound (stop - start + step - 1) step Hstep) as Hmod.
    pose proof (Z.div_mod (stop - start + step - 1) step) as Hdiv.
    fold q in Hdiv. nia. }
  split.
  - intros (i & -> & Hi%elem_of_seq). split.
    + assert (Z.of_nat i < q)%Z by lia. nia.
    + replace (start + Z.of_nat i * step - start)%Z with (Z.of_nat i * step)%Z by lia.
      apply Z.mod_mul. lia.
  - intros [[Hlo Hhi] Hmod]. apply Z.mod_divide in Hmod as [j Hj]; [|lia].
    assert (0 ≤ j)%Z by nia.
    exists (Z.to_nat j). split; [lia|]. apply elem_of_seq.
    assert (j < q)%Z by nia. lia.
Qed.

Lemma column_max_spec (z : Z) (zs : list Z) :
  column_max z zs ∈ z :: zs ∧ ∀ x, x ∈ z :: zs → (x ≤ column_max z zs)%Z.
Proof.
  unfold column_max. revert z. induction zs as [|y zs IH]; intros z; simpl.
  - split; [by left|]. by intros x ->%list_elem_of_singleton.
  - destruct (IH (Z.max z y)) as [Hin Hle]. split.
    + apply elem_of_cons in Hin as [Heq|Hin]; [|by do 2 right].
      rewrite Heq. destruct (Z.max_spec z y) as [[_ ->]|[_ ->]]; [right|]; by left.
    + intros x [->|[->|Hx]%elem_of_cons]%elem_of_cons.
      * etrans; [|apply Hle; by left]. lia.
      * etrans; [|apply Hle; by left]. lia.
      * apply Hle. by right.
Qed.

(** *** The temporary column *)

Lemma color_with_abs r : color (with_abs r) = color r.
Proof. done. Qed.

Lemma score_with_abs r : score (with_abs r) = score r.
Proof. done. Qed.

Lemma no_smaller_with_abs a b :
  no_smaller (with_abs a) (with_abs b) → (Qabs (score b) <= Qabs (score a))%Q.
Proof. unfold no_smaller. simpl. by intros ?%negb_false_iff%Qle_bool_iff. Qed.

Lemma no_smaller_abs rs a b :
  a ∈ with_abs <$> rs → b ∈ with_abs <$> rs → no_smaller a b →
  (Qabs (score b) <= Qabs (score a))%Q.
Proof.
  intros (a' & -> & _)%list_elem_of_fmap (b' & -> & _)%list_elem_of_fmap.
  apply no_smaller_with_abs.
Qed.

Lemma filter_color_with_abs rs v :
  filter (λ r, color r = v) (with_abs <$> rs)
  = with_abs <$> filter (λ r, color r = v) rs.
Proof.
  induction rs as [|r rs IH]; [done|]. rewrite fmap_cons.
  destruct (decide (color r = v)) as [Hv|Hv].
  - rewrite !filter_cons_True by done. by rewrite fmap_cons, IH.
  - by rewrite !filter_cons_False by done.
Qed.

Lemma fst_imap_pair {A B} (g : nat → A → B) (l : list A) :
  (imap (λ i x, (x, g i x)) l).*1 = l.
Proof.
  revert g. induction l as [|x l IH]; intros g; [done|].
  cbn [imap]. rewrite fmap_cons. simpl. f_equal. apply (IH (λ i, g (S i))).
Qed.

Lemma legend_entries_keys cmap_N rs v :
  v ∈ (legend_entries key_leb cmap_N rs).*1 ↔ v ∈ color <$> rs.
Proof.
  unfold legend_entries.
  rewrite (fst_imap_pair (λ i _, (i mod cmap_N)%nat)). apply elem_of_sorted_unique.
Qed.

(** *** The claims *)

(** C3: the figure gets a discrete legend, the categorical mode, exactly
    when the colour column has dtype object or category or has fewer than
    20 distinct values; a column of another dtype with 19 distinct values
    is categorical and one with 20 is continuous. *)
Theorem plot_atlas_color_mode σ df color_col top_k cmap_N frame :
  σ !! df = Some frame →
  ∃ fig σ',
    plot_atlas key_leb isna df color_col top_k cmap_N σ = Some (fig, σ') ∧
    (is_Some (legend fig)
       ↔ color_dtype frame = object ∨ color_dtype frame = category
         ∨ (nunique isna (color <$> rows frame) < 20)%nat) ∧
    (color_dtype frame ≠ object → color_dtype frame ≠ category →
       (nunique isna (color <$> rows frame) = 19%nat → is_Some (legend fig)) ∧
       (nunique isna (color <$> rows frame) = 20%nat → legend fig = None)).
Proof.
  intros Hdf.
  destruct (plot_atlas_run key_leb isna σ df color_col top_k cmap_N frame Hdf)
    as (fig & σ' & Hrun & _ & Hlegend & _).
  exists fig, σ'. split; [done|]. rewrite Hlegend. unfold color_mode.
  split.
  - destruct (color_dtype frame); try (split; [by auto|by eauto]);
      destruct (decide _); (split;
        [intros Hsome; try (by inversion Hsome); by auto
        |intros [?|[?|?]]; done || by eauto]).
  - intros Hobj Hcat.
    destruct (color_dtype frame); try done;
      (split; intros Hn; rewrite Hn; [by eauto|done]).
Qed.

(** C2: with [top_k = k], in the categorical mode the rows drawn for
    each value of the colour column are, among the input rows of that
    value, as many as [k] allows and none of them has a smaller absolute
    score than a row of that value left out (of a missing value, which
    is no category, no row is drawn); in the continuous mode the same
    holds for the rows as a whole, of which there are exactly the minimum
    of [k] and the row count. *)
Theorem plot_atlas_top_k σ df color_col (k : Z) cmap_N frame :
  σ !! df = Some frame →
  ∃ fig σ',
    plot_atlas key_leb isna df color_col (Some k) cmap_N σ = Some (fig, σ') ∧
    (color_mode isna frame = true → ∀ v, ∃ dropped,
       with_abs <$> filter (λ r, color r = v) (rows frame)
         ≡ₚ filter (λ r, color r = v) (data fig) ++ dropped ∧
       length (filter (λ r, color r = v) (data fig))
         = (if isna v then 0
            else Z.to_nat k `min` length (filter (λ r, color r = v) (rows frame)))%nat ∧
       (length (filter (λ r, color r = v) (data fig)) ≤ Z.to_nat k)%nat ∧
       ∀ a b, a ∈ filter (λ r, color r = v) (data fig) → b ∈ dropped →
              (Qabs (score b) <= Qabs (score a))%Q) ∧
    (color_mode isna frame = false → ∃ dropped,
       with_abs <$> rows frame ≡ₚ data fig ++ dropped ∧
       length (data fig) = Z.to_nat k `min` length (rows frame) ∧
       ∀ a b, a ∈ data fig → b ∈ dropped →
              (Qabs (score b) <= Qabs (score a))%Q).
Proof.
  intros Hdf.
  destruct (plot_atlas_run key_leb isna σ df color_col (Some k) cmap_N frame Hdf)
    as (fig & σ' & Hrun & Hdata & _).
  exists fig, σ'. split; [done|]. rewrite Hdata. unfold filtered. simpl. split.
  - intros ->. intros v.
    rewrite (filter_groupby_apply key_leb isna (nlargest k)) by apply nlargest_subseteq.
    rewrite filter_color_with_abs. destruct (isna v).
    { exists (with_abs <$> filter (λ r, color r = v) (rows frame)).
      split; [done|]. split; [done|]. split; [simpl; lia|].
      by intros a b ?%elem_of_nil. }
    destruct (nlargest_spec k (with_abs <$> filter (λ r, color r = v) (rows frame)))
      as (Hperm & Hlen & Hdom).
    exists (drop (Z.to_nat k)
              (sort_descending (with_abs <$> filter (λ r, color r = v) (rows frame)))).
    split; [done|]. split; [by rewrite Hlen, length_fmap|].
    split; [rewrite Hlen; lia|].
    intros a b Ha Hb. apply (no_smaller_abs (filter (λ r, color r = v) (rows frame))).
    + by apply nlargest_subseteq in Ha.
    + apply subseteq_drop in Hb. by rewrite sort_descending_perm in Hb.
    + by apply Hdom.
  - intros ->.
    destruct (nlargest_spec k (with_abs <$> rows frame)) as (Hperm & Hlen & Hdom).
    exists (drop (Z.to_nat k) (sort_descending (with_abs <$> rows frame))).
    split; [done|]. split; [by rewrite Hlen, length_fmap|].
    intros a b Ha Hb. apply (no_smaller_abs (rows frame)).
    + by apply nlargest_subseteq in Ha.
    + apply subseteq_drop in Hb. by rewrite sort_descending_perm in Hb.
    + by apply Hdom.
Qed.

(** C10, amended: in the categorical mode with [top_k = k] and [k] at
    least 1, every value of the colour column of the input that is not
    missing is the colour of a row that is drawn, and is an entry of the
    legend; a missing value is the colour of no row that is drawn. *)
Theorem plot_atlas_keeps_categories σ df color_col (k : Z) cmap_N frame :
  σ !! df = Some frame →
  (1 ≤ k)%Z →
  color_mode isna frame = true →
  ∃ fig σ',
    plot_atlas key_leb isna df color_col (Some k) cmap_N σ = Some (fig, σ') ∧
    (∀ v, v ∈ color <$> rows frame → isna v = false →
       v ∈ color <$> data fig ∧
       ∃ entries, legend fig = Some entries ∧ v ∈ entries.*1) ∧
    (∀ v, isna v = true →
       (v ∉ color <$> data fig) ∧
       ∃ entries, legend fig = Some entries ∧ (v ∉ entries.*1)).
Proof.
  intros Hdf Hk Hmode.
  destruct (plot_atlas_run key_leb isna σ df color_col (Some k) cmap_N frame Hdf)
    as (fig & σ' & Hrun & Hdata & Hlegend & _).
  exists fig, σ'. split; [done|].
  assert (∀ v, v ∈ color <$> data fig ↔ filter (λ r, color r = v) (data fig) ≠ [])
    as Hdrawn.
  { intros v. split.
    - intros (r & -> & Hr)%list_elem_of_fmap Hnil.
      assert (r ∈ filter (λ r', color r' = color r) (data fig)) as Hin
        by by apply list_elem_of_filter.
      rewrite Hnil in Hin. by apply elem_of_nil in Hin.
    - intros Hne.
      destruct (filter (λ r, color r = v) (data fig)) as [|r rest] eqn:Hfilter; [done|].
      assert (r ∈ filter (λ r, color r = v) (data fig)) as Hr by (rewrite Hfilter; by left).
      apply list_elem_of_filter in Hr as [<- Hr]. apply list_elem_of_fmap. by exists r. }
  assert (∀ v, filter (λ r, color r = v) (data fig)
               = if isna v then []
                 else nlargest k (with_abs <$> filter (λ r, color r = v) (rows frame)))
    as Hgroup.
  { intros v. rewrite Hdata. unfold filtered. rewrite Hmode. simpl.
    rewrite (filter_groupby_apply key_leb isna (nlargest k)) by apply nlargest_subseteq.
    by rewrite filter_color_with_abs. }
  split.
  - intros v Hv Hpresent.
    assert (v ∈ color <$> data fig) as Hin.
    { apply Hdrawn. rewrite Hgroup, Hpresent. intros Hnil.
      apply (f_equal length) in Hnil.
      destruct (nlargest_spec k (with_abs <$> filter (λ r, color r = v) (rows frame)))
        as (_ & Hlen & _).
      rewrite Hlen, length_fmap in Hnil. simpl in Hnil.
      apply list_elem_of_fmap in Hv as (r & -> & Hr).
      assert (r ∈ filter (λ r', color r' = color r) (rows frame)) as Hin
        by by apply list_elem_of_filter.
      destruct (filter (λ r', color r' = color r) (rows frame)); [by apply elem_of_nil in Hin|].
      simpl in Hnil. lia. }
    split; [done|]. rewrite Hlegend, Hmode. eexists. split; [done|].
    apply legend_entries_keys. by rewrite <- Hdata.
  - intros v Hmissing.
    assert (v ∉ color <$> data fig) as Hout.
    { rewrite Hdrawn, Hgroup, Hmissing. by intros []. }
    split; [done|]. rewrite Hlegend, Hmode. eexists. split; [done|].
    rewrite legend_entries_keys. by rewrite <- Hdata.
Qed.

(** C7: the call leaves every DataFrame of the store as it was, the
    caller's among them; the temporary column is written to a copy made
    at a new location. *)
Theorem plot_atlas_preserves_input σ df color_col top_k cmap_N frame :
  σ !! df = Some frame →
  ∃ fig σ',
    plot_atlas key_leb isna df color_col top_k cmap_N σ = Some (fig, σ') ∧
    σ' !! df = Some frame ∧
    (∀ l, is_Some (σ !! l) → σ' !! l = σ !! l) ∧
    ∃ df_plot, df_plot ≠ df ∧ σ !! df_plot = None
               ∧ σ' !! df_plot = Some (set_abs_score_temp frame).
Proof.
  intros Hdf.
  destruct (plot_atlas_run key_leb isna σ df color_col top_k cmap_N frame Hdf)
    as (fig & σ' & Hrun & _ & _ & _ & Hkeep & Hfresh & Hcopy).
  exists fig, σ'. split; [done|]. split; [by rewrite Hkeep|]. split; [done|].
  exists (fresh (dom σ)). split; [congruence|done].
Qed.

(** C8: whatever [top_k] is, the ticks come from the caller's frame:
    none for a frame without rows, and otherwise the even numbers from 0
    to the largest head id and all numbers from 0 to the largest layer
    id of the unfiltered rows; the call returns in both cases. *)
Theorem plot_atlas_ticks σ df color_col top_k cmap_N frame :
  σ !! df = Some frame →
  ∃ fig σ',
    plot_atlas key_leb isna df color_col top_k cmap_N σ = Some (fig, σ') ∧
    (rows frame = [] → ticks fig = None) ∧
    (rows frame ≠ [] →
       ∃ xticks yticks max_head max_layer,
         ticks fig = Some (xticks, yticks) ∧
         max_head ∈ head <$> rows frame ∧
         (∀ x, x ∈ head <$> rows frame → (x ≤ max_head)%Z) ∧
         max_layer ∈ layer <$> rows frame ∧
         (∀ y, y ∈ layer <$> rows frame → (y ≤ max_layer)%Z) ∧
         (∀ x, x ∈ xticks ↔ (0 ≤ x ≤ max_head)%Z ∧ (x mod 2 = 0)%Z) ∧
         (∀ y, y ∈ yticks ↔ (0 ≤ y ≤ max_layer)%Z)) ∧
    (∀ fig0 σ0,
       plot_atlas key_leb isna df color_col None cmap_N σ = Some (fig0, σ0) →
       ticks fig = ticks fig0).
Proof.
  intros Hdf.
  destruct (plot_atlas_run key_leb isna σ df color_col top_k cmap_N frame Hdf)
    as (fig & σ' & Hrun & _ & _ & Hticks & _).
  exists fig, σ'. split; [done|]. rewrite Hticks. unfold axis_ticks.
  split; [by intros ->|]. split.
  - destruct (rows frame) as [|r rs]; [done|]. intros _.
    destruct (column_max_spec (head r) (head <$> rs)) as [Hin_h Hmax_h].
    destruct (column_max_spec (layer r) (layer <$> rs)) as [Hin_l Hmax_l].
    eexists _, _, (column_max (head r) (head <$> rs)),
      (column_max (layer r) (layer <$> rs)).
    split; [done|]. rewrite !fmap_cons.
    split; [done|]. split; [done|]. split; [done|]. split; [done|]. split.
    + intros x. rewrite elem_of_arange by lia. rewrite Z.sub_0_r. lia.
    + intros y. rewrite elem_of_arange by lia. rewrite Z.sub_0_r, Z.mod_1_r. lia.
  - intros fig0 σ0 Hrun0.
    destruct (plot_atlas_run key_leb isna σ df color_col None cmap_N frame Hdf)
      as (fig1 & σ1 & Hrun1 & _ & _ & Hticks1 & _).
    rewrite Hrun1 in Hrun0. injection Hrun0 as <- <-. by rewrite Hticks1.
Qed.

End atlas_claims.

(** ** The properties at sample inputs *)

(** Either side of the threshold of 20 distinct values. *)
Example color_mode_19 : color_mode no_missing (frame_with_colors 19) = true.
Proof. vm_compute. reflexivity. Qed.

Example color_mode_20 : color_mode no_missing (frame_with_colors 20) = false.
Proof. vm_compute. reflexivity. Qed.

Lemma plot_atlas_color_mode_witness :
  ∃ fig σ',
    plot_atlas Z.leb no_missing 1%positive "cluster" None 10 {[ 1%positive := frame_with_colors 19 ]}
      = Some (fig, σ') ∧
    (is_Some (legend fig)
       ↔ color_dtype (frame_with_colors 19) = object
         ∨ color_dtype (frame_with_colors 19) = category
         ∨ (nunique no_missing (color <$> rows (frame_with_colors 19)) < 20)%nat) ∧
    (color_dtype (frame_with_colors 19) ≠ object →
     color_dtype (frame_with_colors 19) ≠ category →
       (nunique no_missing (color <$> rows (frame_with_colors 19)) = 19%nat → is_Some (legend fig)) ∧
       (nunique no_missing (color <$> rows (frame_with_colors 19)) = 20%nat → legend fig = None)).
Proof.
  apply (plot_atlas_color_mode Z.leb no_missing {[ 1%positive := frame_with_colors 19 ]}
           1%positive "cluster" None 10 (frame_with_colors 19)).
  reflexivity.
Defined.

Lemma plot_atlas_top_k_witness :
  ∃ fig σ',
    plot_atlas Z.leb no_missing 1%positive "cluster" (Some 1%Z) 10 sample_store = Some (fig, σ') ∧
    (color_mode no_missing sample_frame = true → ∀ v, ∃ dropped,
       with_abs <$> filter (λ r, color r = v) (rows sample_frame)
         ≡ₚ filter (λ r, color r = v) (data fig) ++ dropped ∧
       length (filter (λ r, color r = v) (data fig))
         = (if no_missing v then 0
            else Z.to_nat 1 `min` length (filter (λ r, color r = v) (rows sample_frame)))%nat ∧
       (length (filter (λ r, color r = v) (data fig)) ≤ Z.to_nat 1)%nat ∧
       ∀ a b, a ∈ filter (λ r, color r = v) (data fig) → b ∈ dropped →
              (Qabs (score b) <= Qabs (score a))%Q) ∧
    (color_mode no_missing sample_frame = false → ∃ dropped,
       with_abs <$> rows sample_frame ≡ₚ data fig ++ dropped ∧
       length (data fig) = Z.to_nat 1 `min` length (rows sample_frame) ∧
       ∀ a b, a ∈ data fig → b ∈ dropped →
              (Qabs (score b) <= Qabs (score a))%Q).
Proof.
  apply (plot_atlas_top_k Z.leb no_missing sample_store 1%positive "cluster" 1%Z 10 sample_frame).
  reflexivity.
Defined.

(** C10 as stated fails on a frame with a missing colour value: drawn
    without [top_k], NaN has a point and a legend entry; drawn with
    [top_k = 1], which the colour mode of the frame makes a filter per
    category, it has neither. *)
Lemma plot_atlas_drops_missing_category :
  color_mode nan_isna frame_with_nan = true ∧
  None ∈ color <$> rows frame_with_nan ∧
  (∃ fig σ',
     plot_atlas nan_leb nan_isna 1%positive "cluster" None 10 store_with_nan
       = Some (fig, σ') ∧
     None ∈ color <$> data fig ∧
     ∃ entries, legend fig = Some entries ∧ None ∈ entries.*1) ∧
  ¬ (∃ fig σ',
       plot_atlas nan_leb nan_isna 1%positive "cluster" (Some 1%Z) 10 store_with_nan
         = Some (fig, σ') ∧
       ∀ v, v ∈ color <$> rows frame_with_nan →
         v ∈ color <$> data fig ∧
         ∃ entries, legend fig = Some entries ∧ v ∈ entries.*1).
Proof.
  split; [reflexivity|]. split; [vm_compute; by right; left|]. split.
  - eexists _, _. split; [vm_compute; reflexivity|]. simpl. split.
    + by right; left.
    + eexists. split; [reflexivity|]. vm_compute. by left.
  - intros (fig & σ' & Hrun & Hall). vm_compute in Hrun. injection Hrun as <- _.
    destruct (Hall None) as [Hdrawn _]; [vm_compute; by right; left|].
    simpl in Hdrawn. apply elem_of_cons in Hdrawn as [?|Hdrawn]; [done|].
    by apply elem_of_nil in Hdrawn.
Qed.

Lemma plot_atlas_keeps_categories_witness :
  ∃ fig σ',
    plot_atlas nan_leb nan_isna 1%positive "cluster" (Some 1%Z) 10 store_with_nan
      = Some (fig, σ') ∧
    (∀ v, v ∈ color <$> rows frame_with_nan → nan_isna v = false →
       v ∈ color <$> data fig ∧
       ∃ entries, legend fig = Some entries ∧ v ∈ entries.*1) ∧
    (∀ v, nan_isna v = true →
       (v ∉ color <$> data fig) ∧
       ∃ entries, legend fig = Some entries ∧ (v ∉ entries.*1)).
Proof.
  apply (plot_atlas_keeps_categories nan_leb nan_isna store_with_nan 1%positive "cluster"
           1%Z 10 frame_with_nan).
  - reflexivity.
  - lia.
  - reflexivity.
Defined.

Lemma plot_atlas_preserves_input_witness :
  ∃ fig σ',
    plot_atlas Z.leb no_missing 1%positive "cluster" (Some 1%Z) 10 sample_store = Some (fig, σ') ∧
    σ' !! 1%positive = Some sample_frame ∧
    (∀ l, is_Some (sample_store !! l) → σ' !! l = sample_store !! l) ∧
    ∃ df_plot, df_plot ≠ 1%positive ∧ sample_store !! df_plot = None
               ∧ σ' !! df_plot = Some (set_abs_score_temp sample_frame).
Proof.
  apply (plot_atlas_preserves_input Z.leb no_missing sample_store 1%positive "cluster" (Some 1%Z) 10
           sample_frame).
  reflexivity.
Defined.

Lemma plot_atlas_ticks_witness :
  ∃ fig σ',
    plot_atlas Z.leb no_missing 1%positive "cluster" (Some 1%Z) 10 sample_store = Some (fig, σ') ∧
    (rows sample_frame = [] → ticks fig = None) ∧
    (rows sample_frame ≠ [] →
       ∃ xticks yticks max_head max_layer,
         ticks fig = Some (xticks, yticks) ∧
         max_head ∈ head <$> rows sample_frame ∧
         (∀ x, x ∈ head <$> rows sample_frame → (x ≤ max_head)%Z) ∧
         max_layer ∈ layer <$> rows sample_frame ∧
         (∀ y, y ∈ layer <$> rows sample_frame → (y ≤ max_layer)%Z) ∧
         (∀ x, x ∈ xticks ↔ (0 ≤ x ≤ max_head)%Z ∧ (x mod 2 = 0)%Z) ∧
         (∀ y, y ∈ yticks ↔ (0 ≤ y ≤ max_layer)%Z)) ∧
    (∀ fig0 σ0,
       plot_atlas Z.leb no_missing 1%positive "cluster" None 10 sample_store = Some (fig0, σ0) →
       ticks fig = ticks fig0).
Proof.
  apply (plot_atlas_ticks Z.leb no_missing sample_store 1%positive "cluster" (Some 1%Z) 10
           sample_frame).
  reflexivity.
Defined.

(** The sample frame drawn with [top_k = 1]: the row of largest absolute
    score of each of the two colours, and ticks up to head 5 and layer 4
    although the rows drawn stop at head 3. *)
Example plot_atlas_sample :
  fst <$> plot_atlas Z.leb no_missing 1%positive "cluster" (Some 1%Z) 10 sample_store
  = Some (Figure
            [Row 3 1 (- 3 # 2) 1%Z (Some (3 # 2)); Row 1 4 (- 2) 2%Z (Some 2%Q)]
            (Some [(1%Z, 0%nat); (2%Z, 1%nat)])
            "(Top 1 per cluster)"
            (Some ([0; 2; 4]%Z, [0; 1; 2; 3; 4]%Z))).
Proof. vm_compute. reflexivity. Qed.

(** A frame without rows: the call returns, no ticks are set. *)
Example plot_atlas_empty :
  fst <$> plot_atlas Z.leb no_missing 1%positive "cluster" (Some 3%Z) 10
            {[ 1%positive := Frame object [] ]}
  = Some (Figure [] (Some []) "(Top 3 per cluster)" None).
Proof. vm_compute. reflexivity. Qed.

(** * Further properties *)

(** ** [decode_tokens_for_plotting] *)

Section decoder_more.
Implicit Types (t : string) (c : ascii) (tokens : list string).

Lemma foldl_absent t cs current :
  (∀ c, c ∈ cs → contains c t = false) →
  foldl (λ current c, if contains c t then replace c (escaped c) t else current)
        current cs = current.
Proof.
  revert current. induction cs as [|c cs IH]; intros current Hnone; simpl; [done|].
  rewrite (Hnone c) by by left. apply IH. intros c' Hc'. apply Hnone. by right.
Qed.

(** X1: of the special characters that occur in a decoded token, the one
    that comes last in the list of special characters is escaped at every
    occurrence, and the token is otherwise returned as decoded. *)
Theorem decode_tokens_for_plotting_last_special
    (input_ids : list Z) (tokenizer : Z → option string) (decoded : list string)
    (i : nat) t c (before after : list ascii) :
  mapM tokenizer input_ids = Some decoded →
  decoded !! i = Some t →
  special_characters = before ++ c :: after →
  contains c t = true →
  (∀ c', c' ∈ after → contains c' t = false) →
  ∃ out, decode_tokens_for_plotting input_ids tokenizer = Some out
         ∧ out !! i = Some (replace c (escaped c) t).
Proof.
  intros Hdec Hi Hsplit Hc Hafter. exists (escape_token <$> decoded).
  rewrite decode_tokens_for_plotting_map, Hdec. split; [done|].
  rewrite list_lookup_fmap, Hi. simpl. f_equal.
  unfold escape_token. rewrite Hsplit, foldl_app. simpl. rewrite Hc.
  by apply foldl_absent.
Qed.

Lemma unescape_plain t : contains backslash t = false → unescape t = t.
Proof.
  induction t as [|x r IH]; [done|]. simpl.
  destruct (decide (x = backslash)); [done|]. intros Hr. by rewrite IH.
Qed.

Lemma unescape_replace t c :
  c = backslash ∨ contains backslash t = false →
  unescape (replace c (escaped c) t) = t.
Proof.
  intros Hc. induction t as [|x r IH]; [done|].
  assert (unescape (replace c (escaped c) r) = r) as Hr.
  { apply IH. destruct Hc as [?|Hc]; [by left|right].
    simpl in Hc. by destruct (decide (x = backslash)). }
  cbn [replace]. destruct (decide (x = c)) as [->|Hx].
  - assert (∀ s, unescape (escaped c +:+ s) = String c (unescape s)) as ->.
    { intros s. unfold escaped. simpl. by destruct (decide (backslash = backslash)). }
    by rewrite Hr.
  - cbn [unescape]. rewrite decide_False; [by rewrite Hr|].
    intros ->. destruct Hc as [->|Hc]; [done|].
    by rewrite contains_head in Hc.
Qed.

(** What the fold leaves: the token, or the replacement for one of the
    characters folded over that occurs in it. *)
Lemma foldl_replace_cases t cs current :
  foldl (λ current c, if contains c t then replace c (escaped c) t else current)
        current cs = current
  ∨ ∃ c, c ∈ cs ∧ contains c t = true
         ∧ foldl (λ current c, if contains c t then replace c (escaped c) t else current)
                 current cs = replace c (escaped c) t.
Proof.
  revert current. induction cs as [|c cs IH]; intros current; simpl; [by left|].
  destruct (IH (if contains c t then replace c (escaped c) t else current))
    as [Hsame|(c' & Hin & Hc' & Heq)].
  - destruct (contains c t) eqn:Hc; [|by left].
    right. exists c. split; [by left|]. by split.
  - right. exists c'. split; [by right|]. by split.
Qed.

Lemma unescape_escape_token t : unescape (escape_token t) = t.
Proof.
  unfold escape_token.
  change special_characters with (["&"; "%"; "$"; "#"; "_"; "{"; "}"]%char ++ [backslash]).
  rewrite foldl_app.
  destruct (foldl_replace_cases t ["&"; "%"; "$"; "#"; "_"; "{"; "}"]%char t)
    as [->|(c & _ & _ & ->)]; cbn [foldl];
    destruct (contains backslash t) eqn:Hbs.
  - apply unescape_replace. by left.
  - by apply unescape_plain.
  - apply unescape_replace. by left.
  - apply unescape_replace. by right.
Qed.

(** X2: the escaping loses nothing: two calls that return the same list
    decoded the same texts. *)
Theorem decode_tokens_for_plotting_injective
    (ids1 ids2 : list Z) (tokenizer1 tokenizer2 : Z → option string) (out : list string) :
  decode_tokens_for_plotting ids1 tokenizer1 = Some out →
  decode_tokens_for_plotting ids2 tokenizer2 = Some out →
  mapM tokenizer1 ids1 = mapM tokenizer2 ids2.
Proof.
  rewrite !decode_tokens_for_plotting_map.
  destruct (mapM tokenizer1 ids1) as [d1|]; [|done].
  destruct (mapM tokenizer2 ids2) as [d2|]; [|done].
  simpl. intros [= H1] [= H2]. f_equal.
  assert (∀ d : list string, unescape <$> (escape_token <$> d) = d) as Hback.
  { intros d. induction d as [|t d IH]; [done|].
    rewrite !fmap_cons, IH. by rewrite unescape_escape_token. }
  rewrite <- (Hback d1), <- (Hback d2). by rewrite H1, H2.
Qed.

Lemma mapM_app_option {A B} (f : A → option B) (l1 l2 : list A) :
  mapM f (l1 ++ l2) = (k1 ← mapM f l1; k2 ← mapM f l2; Some (k1 ++ k2)).
Proof.
  induction l1 as [|x l1 IH]; simpl.
  - by destruct (mapM f l2).
  - destruct (f x) as [y|]; simpl; [|done]. rewrite IH.
    destruct (mapM f l1) as [k1|]; simpl; [|done].
    by destruct (mapM f l2).
Qed.

(** X3: tokens are treated one by one: the result for two lists of ids
    put together is the two results put together, and there is a result
    only if there is one for both. *)
Theorem decode_tokens_for_plotting_app
    (ids1 ids2 : list Z) (tokenizer : Z → option string) :
  decode_tokens_for_plotting (ids1 ++ ids2) tokenizer
  = (out1 ← decode_tokens_for_plotting ids1 tokenizer;
     out2 ← decode_tokens_for_plotting ids2 tokenizer;
     Some (out1 ++ out2)).
Proof.
  rewrite !decode_tokens_for_plotting_map, mapM_app_option.
  destruct (mapM tokenizer ids1) as [d1|]; simpl; [|done].
  destruct (mapM tokenizer ids2) as [d2|]; simpl; [|done].
  by rewrite fmap_app.
Qed.

End decoder_more.

(** ** [jupyter_heatmap] *)

Section heatmap_more.
Context (apply_colormap : Q → string → result rgba).
#[local] Existing Instance in_range_dec.
Implicit Types (tokens : list string) (rs : relevances) (vs : list Q) (cmap : string).

(** X4: a difference in length is reported first: whatever the kind of
    [relevances], its values and the colormap, the call raises the
    assertion on the lengths and renders nothing. *)
Theorem jupyter_heatmap_length_error tokens rs cmap :
  length tokens ≠ length (values rs) →
  jupyter_heatmap apply_colormap tokens rs cmap = Raise (AssertionError length_message).
Proof. apply jupyter_heatmap_length_mismatch. Qed.

(** X5: relevances between -1 and 1, given as a plain list or as an
    array that is not empty, with as many tokens, are rendered as the
    opening tag, one element per token in the order of the input, each
    with the colour of its own relevance, and the closing tag. *)
Theorem jupyter_heatmap_one_element_per_token tokens rs cmap :
  length tokens = length (values rs) →
  Forall in_range (values rs) →
  hasattr_min rs = false ∨ values rs ≠ [] →
  (∀ v, v ∈ values rs → ∃ rgb, channels apply_colormap v cmap = Ok rgb) →
  ∃ elements,
    jupyter_heatmap apply_colormap tokens rs cmap
      = Ok (join (html_open :: elements ++ [html_close])) ∧
    length elements = length tokens ∧
    ∀ i token v, tokens !! i = Some token → values rs !! i = Some v →
      ∃ r g b, channels apply_colormap v cmap = Ok (r, g, b) ∧
               elements !! i = Some (styled_element r g b (text_color r g b) token).
Proof.
  intros Hlen Hall Hshape Hcm.
  destruct (jupyter_heatmap_in_range apply_colormap tokens rs cmap Hlen Hall Hshape Hcm)
    as (elements & Hrun & Hn & Hel).
  exists elements. split; [done|]. split; [done|].
  intros i token v Hi Hv.
  assert (zip tokens (values rs) !! i = Some (token, v)) as Hpair
    by by apply lookup_zip_Some.
  destruct (Forall2_lookup_l _ _ _ _ _ Hel Hpair) as (element & Hi' & r & g & b & Hch & ->).
  exists r, g, b. done.
Qed.

Lemma render_first_error cmap tokens vs html_parts (i : nat) v e :
  length tokens = length vs →
  vs !! i = Some v →
  channels apply_colormap v cmap = Raise e →
  (∀ j x, (j < i)%nat → vs !! j = Some x →
          ∃ rgb, channels apply_colormap x cmap = Ok rgb) →
  render apply_colormap cmap (zip tokens vs) html_parts = Raise e.
Proof.
  revert tokens i html_parts.
  induction vs as [|x vs IH]; intros tokens i acc Hlen Hi He Hbefore; [done|].
  destruct tokens as [|token tokens]; [done|]. simpl in Hlen. cbn [zip zip_with render].
  destruct i as [|i].
  - injection Hi as ->. by rewrite He.
  - destruct (Hbefore 0%nat x) as [[[r g] b] Hx]; [lia|done|].
    rewrite Hx. simpl. apply (IH tokens i); [lia|done|done|].
    intros j y Hj Hy. apply (Hbefore (S j)); [lia|done].
Qed.

(** X6: an exception of the colour lookup is the exception of the call:
    when the inputs pass the two assertions and the lookup raises for a
    relevance, after answering for all relevances before it, the call
    raises the same exception and renders nothing. *)
Theorem jupyter_heatmap_colormap_error tokens rs cmap (i : nat) v e :
  length tokens = length (values rs) →
  (hasattr_min rs = true → Forall in_range (values rs)) →
  values rs !! i = Some v →
  channels apply_colormap v cmap = Raise e →
  (∀ j x, (j < i)%nat → values rs !! j = Some x →
          ∃ rgb, channels apply_colormap x cmap = Ok rgb) →
  jupyter_heatmap apply_colormap tokens rs cmap = Raise e.
Proof.
  intros Hlen Hrange Hi He Hbefore. unfold jupyter_heatmap.
  rewrite Hlen, Nat.eqb_refl. simpl.
  assert (check_range rs = Ok ()) as ->.
  { destruct rs as [vs|[|x vs]]; simpl in *; [done|done|].
    by apply (check_range_array_ok apply_colormap), Hrange. }
  simpl. by rewrite (render_first_error cmap tokens (values rs) [html_open] i v e).
Qed.

(** X17: a call that returns was given inputs of equal length whose
    relevances, when they have a [min] attribute, are at least one and all
    between -1 and 1, and its HTML is the opening tag, then exactly one
    span for each token, in the order of the tokens, with the background
    of the token's relevance, then the closing tag. *)
Theorem jupyter_heatmap_returns_only_checked tokens rs cmap (html : string) :
  jupyter_heatmap apply_colormap tokens rs cmap = Ok html →
  length tokens = length (values rs) ∧
  (hasattr_min rs = true → values rs ≠ [] ∧ Forall in_range (values rs)) ∧
  ∃ elements,
    html = join (html_open :: elements ++ [html_close]) ∧
    length elements = length tokens ∧
    ∀ i token, tokens !! i = Some token →
      ∃ v r g b,
        values rs !! i = Some v ∧
        channels apply_colormap v cmap = Ok (r, g, b) ∧
        elements !! i
        = Some ("<span style=" +:+ dquote +:+ "background-color: rgb("
               +:+ pretty r +:+ "," +:+ pretty g +:+ "," +:+ pretty b +:+ "); "
               +:+ "color: " +:+ text_color r g b +:+ "; padding: 2px 4px; margin: 1px; "
               +:+ "display: inline-block; border-radius: 2px;" +:+ dquote +:+ ">"
               +:+ token +:+ "</span>").
Proof.
  intros (Hlen & Hrange & elements & -> & Hall)%jupyter_heatmap_inv.
  split; [done|]. split.
  - intros Hattr. destruct rs as [vs|[|v vs]]; [done|done|]. simpl.
    split; [done|]. destruct (decide (Forall in_range (v :: vs))) as [?|Hbad]; [done|].
    by rewrite (check_range_array_bad apply_colormap v vs Hbad) in Hrange.
  - exists elements. split; [done|]. split.
    { apply Forall2_length in Hall. rewrite length_zip in Hall. lia. }
    intros i token Hi.
    destruct (lookup_lt_is_Some_2 (values rs) i) as [v Hv].
    { rewrite <- Hlen. by eapply lookup_lt_Some. }
    assert (zip tokens (values rs) !! i = Some (token, v)) as Hpair
      by by apply lookup_zip_Some.
    destruct (Forall2_lookup_l _ _ _ _ _ Hall Hpair)
      as (element & Hi' & r & g & b & Hch & ->).
    exists v, r, g, b. done.
Qed.

End heatmap_more.

Lemma agrees_on_two_equal_bytes : agrees_on_two_equal byte_table = true.
Proof. vm_compute. reflexivity. Qed.

Lemma agrees_on_two_equal_spec (table : list (Z * float)) x y :
  agrees_on_two_equal table = true → x ∈ table → y ∈ table →
  agrees x x y = true ∧ agrees x y y = true ∧ agrees x y x = true.
Proof.
  unfold agrees_on_two_equal. rewrite forallb_forall.
  intros Hall Hx%list_elem_of_In Hy%list_elem_of_In.
  specialize (Hall x Hx). rewrite forallb_forall in Hall. specialize (Hall y Hy).
  apply andb_true_iff in Hall as [[? ?]%andb_true_iff ?]. done.
Qed.

Lemma elem_of_byte_table (z : Z) :
  (0 ≤ z ≤ 255)%Z → (z, Z2float z) ∈ byte_table.
Proof.
  intros Hz. unfold byte_table. apply list_elem_of_fmap. exists z. split; [done|].
  apply elem_of_seqZ. lia.
Qed.

Lemma agrees_spec (r g b : Z) :
  agrees (r, Z2float r) (g, Z2float g) (b, Z2float b) = true →
  (text_color r g b = "white" ↔ (exact_luminance r g b < 1 # 2)%Q)
  ∧ (text_color r g b = "black" ↔ (1 # 2 < exact_luminance r g b)%Q).
Proof.
  unfold agrees. simpl. intros [Hne Heq]%andb_true_iff.
  apply negb_true_iff, Z.eqb_neq in Hne. apply eqb_prop in Heq.
  assert ((1 # 2 < exact_luminance r g b)%Q
          ↔ (127500 < 299 * r + 587 * g + 114 * b)%Z) as Hgt.
  { unfold exact_luminance, Qlt, Qdiv, Qmult, Qplus, Qinv, inject_Z. simpl. lia. }
  rewrite exact_luminance_lt, Hgt. unfold text_color.
  change (luminance r g b) with (luminance_of (Z2float r) (Z2float g) (Z2float b)).
  rewrite Heq. destruct (Z.ltb_spec (299 * r + 587 * g + 114 * b) 127500).
  - split; split; (done || lia).
  - split; split; (done || lia).
Qed.

(** X7: for a background with two equal channels, each channel from 0
    to 255 (the greys, and the colours between white or black and a
    primary colour), the text is white exactly when the exact value of
    the luminance formula is below one half and black exactly when it is
    above; one half itself is not the luminance of such a colour. *)
Theorem text_color_two_equal_channels (r g b : Z) :
  (0 ≤ r ≤ 255)%Z → (0 ≤ g ≤ 255)%Z → (0 ≤ b ≤ 255)%Z →
  r = g ∨ g = b ∨ r = b →
  (text_color r g b = "white" ↔ (exact_luminance r g b < 1 # 2)%Q)
  ∧ (text_color r g b = "black" ↔ (1 # 2 < exact_luminance r g b)%Q).
Proof.
  intros Hr Hg Hb Heq. apply agrees_spec.
  assert (∀ x y, (0 ≤ x ≤ 255)%Z → (0 ≤ y ≤ 255)%Z →
            agrees (x, Z2float x) (x, Z2float x) (y, Z2float y) = true
            ∧ agrees (x, Z2float x) (y, Z2float y) (y, Z2float y) = true
            ∧ agrees (x, Z2float x) (y, Z2float y) (x, Z2float x) = true) as Hxy.
  { intros x y Hx Hy.
    apply (agrees_on_two_equal_spec byte_table);
      [apply agrees_on_two_equal_bytes|by apply elem_of_byte_table..]. }
  destruct Heq as [<-|[<-|<-]].
  - by apply (Hxy r b).
  - by apply (Hxy r g).
  - by apply (Hxy r g).
Qed.

(** ** [plot_atlas] *)

Section atlas_more.
Context {K : Type} `{EqDecision K} (key_leb : K → K → bool) (isna : K → bool).
Implicit Types (rs : list (@row K)) (r a b : @row K) (vs : list K) (v : K).
Implicit Types (frame : @DataFrame K) (σ : gmap loc (@DataFrame K)) (df : loc).

(** *** Groups *)

(** The groups of a list of keys that covers the colours of the rows are
    the rows, rearranged. *)
Lemma concat_groups_perm (keys : list K) rs :
  NoDup keys →
  (∀ r, r ∈ rs → color r ∈ keys) →
  concat ((λ key, filter (λ r, color r = key) rs) <$> keys) ≡ₚ rs.
Proof.
  intros Hnd. revert rs. induction Hnd as [|k keys Hout Hnd IH]; intros rs Hcover.
  - destruct rs as [|r rs]; [done|].
    pose proof (Hcover r ltac:(by left)) as Hin. by apply elem_of_nil in Hin.
  - rewrite fmap_cons. cbn [concat].
    etrans; [|apply (filter_app_complement (λ r, color r = k) rs)].
    apply Permutation_app; [done|].
    rewrite <- (IH (filter (λ r, ¬ color r = k) rs)).
    + assert ((λ key, filter (λ r, color r = key) rs) <$> keys
              = (λ key, filter (λ r, color r = key) (filter (λ r, ¬ color r = k) rs))
                  <$> keys) as ->; [|done].
      apply Forall_fmap_ext, Forall_forall. intros key Hkey.
      symmetry. apply list_filter_filter_l. intros r -> ->. done.
    + intros r [Hne Hr]%list_elem_of_filter.
      pose proof (Hcover r Hr) as Hin. apply elem_of_cons in Hin as [Heq|?]; done.
Qed.

(** The groups together are the rows whose colour is not missing. *)
Lemma groups_perm rs :
  concat ((λ key, filter (λ r, color r = key) rs)
            <$> sorted key_leb (unique (dropna isna (color <$> rs))))
  ≡ₚ filter (λ r, isna (color r) = false) rs.
Proof.
  set (keys := sorted key_leb (unique (dropna isna (color <$> rs)))).
  assert ((λ key, filter (λ r, color r = key) rs) <$> keys
          = (λ key, filter (λ r, color r = key)
                      (filter (λ r, isna (color r) = false) rs)) <$> keys) as ->.
  { apply Forall_fmap_ext, Forall_forall. intros key [Hkey _]%elem_of_group_keys.
    symmetry. by apply filter_color_kept. }
  apply concat_groups_perm; [apply NoDup_sorted_unique|].
  intros r [Hpresent Hr]%list_elem_of_filter.
  apply elem_of_group_keys. split; [done|]. apply list_elem_of_fmap. by exists r.
Qed.

(** Up to the order of the rows, grouping and applying is applying to
    each group. *)
Lemma groupby_apply_perm (f : list row → list row) rs :
  groupby_apply key_leb isna f rs
  ≡ₚ concat (f <$> ((λ key, filter (λ r, color r = key) rs)
                      <$> sorted key_leb (unique (dropna isna (color <$> rs))))).
Proof.
  unfold groupby_apply. destruct (decide _) as [Hsame|_]; [|done].
  rewrite Hsame. symmetry. apply groups_perm.
Qed.

Lemma concat_fmap_submseteq {A} (f : list A → list A) (ls : list (list A)) :
  (∀ l, f l ⊆+ l) → concat (f <$> ls) ⊆+ concat ls.
Proof.
  intros Hf. induction ls as [|l ls IH]; [done|].
  rewrite fmap_cons. cbn [concat]. by apply submseteq_app.
Qed.

Lemma concat_fmap_perm {A} (f : list A → list A) (ls : list (list A)) :
  Forall (λ l, f l ≡ₚ l) ls → concat (f <$> ls) ≡ₚ concat ls.
Proof.
  induction 1 as [|l ls Hl Hls IH]; [done|].
  rewrite fmap_cons. cbn [concat]. by apply Permutation_app.
Qed.

Lemma length_concat_fmap_le {A} (f : list A → list A) (ls : list (list A)) (n : nat) :
  (∀ l, length (f l) ≤ n)%nat → (length (concat (f <$> ls)) ≤ n * length ls)%nat.
Proof.
  intros Hf. induction ls as [|l ls IH]; [simpl; lia|].
  rewrite fmap_cons. cbn [concat]. rewrite length_app. specialize (Hf l). simpl. lia.
Qed.

Lemma nlargest_submseteq (n : Z) rs : nlargest n rs ⊆+ rs.
Proof.
  unfold nlargest. rewrite <- (sort_descending_perm rs) at 2.
  apply sublist_submseteq, sublist_take.
Qed.

Lemma nlargest_all (n : Z) rs : (length rs ≤ Z.to_nat n)%nat → nlargest n rs ≡ₚ rs.
Proof.
  intros Hn. unfold nlargest. rewrite take_ge; [apply sort_descending_perm|].
  by rewrite sort_descending_perm.
Qed.

Lemma nlargest_nonpositive (n : Z) rs : (n ≤ 0)%Z → nlargest n rs = [].
Proof. intros Hn. unfold nlargest. by replace (Z.to_nat n) with 0%nat by lia. Qed.

Lemma filtered_submseteq frame top_k :
  filtered key_leb isna frame top_k ⊆+ with_abs <$> rows frame.
Proof.
  unfold filtered. simpl. destruct top_k as [k|]; [|done].
  destruct (color_mode isna frame); [|apply nlargest_submseteq].
  rewrite groupby_apply_perm.
  etrans; [apply concat_fmap_submseteq, nlargest_submseteq|].
  rewrite groups_perm. apply sublist_submseteq, sublist_filter.
Qed.

Lemma filter_present_with_abs rs :
  filter (λ r, isna (color r) = false) (with_abs <$> rs)
  = with_abs <$> filter (λ r, isna (color r) = false) rs.
Proof.
  induction rs as [|r rs IH]; [done|]. rewrite fmap_cons.
  destruct (decide (isna (color r) = false)) as [Hv|Hv].
  - rewrite !filter_cons_True by done. by rewrite fmap_cons, IH.
  - by rewrite !filter_cons_False by done.
Qed.

(** *** Small frames *)

Lemma nunique_le_length vs : (nunique isna vs ≤ length vs)%nat.
Proof.
  unfold nunique. etrans; [|apply (length_filter (λ v, isna v = false))].
  apply submseteq_length, NoDup_submseteq; [apply NoDup_unique|].
  intros v. by rewrite elem_of_unique.
Qed.

(** *** The legend *)

Lemma insert_key_sorted v vs :
  (∀ x y, key_leb x y = true ∨ key_leb y x = true) →
  (∀ x y z, key_leb x y = true → key_leb y z = true → key_leb x z = true) →
  StronglySorted (λ x y, key_leb x y = true) vs →
  StronglySorted (λ x y, key_leb x y = true) (insert_key key_leb v vs).
Proof.
  intros Htotal Htrans. induction 1 as [|x vs Hsorted IH Hall]; simpl.
  - repeat constructor.
  - destruct (key_leb v x) eqn:Hvx.
    + constructor; [by constructor|]. constructor; [done|].
      eapply Forall_impl; [exact Hall|]. intros y Hy. by eapply Htrans.
    + constructor; [done|]. rewrite insert_key_perm. constructor; [|done].
      destruct (Htotal v x); [congruence|done].
Qed.

Lemma sorted_sorted vs :
  (∀ x y, key_leb x y = true ∨ key_leb y x = true) →
  (∀ x y z, key_leb x y = true → key_leb y z = true → key_leb x z = true) →
  StronglySorted (λ x y, key_leb x y = true) (sorted key_leb vs).
Proof.
  intros Htotal Htrans. induction vs as [|v vs IH]; simpl; [constructor|].
  by apply insert_key_sorted.
Qed.

Lemma legend_entries_fst cmap_N rs :
  (legend_entries key_leb cmap_N rs).*1 = sorted key_leb (unique (color <$> rs)).
Proof. unfold legend_entries. apply (fst_imap_pair (λ i _, (i mod cmap_N)%nat)). Qed.

Lemma lookup_legend_entries cmap_N rs (i : nat) v (j : nat) :
  legend_entries key_leb cmap_N rs !! i = Some (v, j) → j = (i mod cmap_N)%nat.
Proof.
  unfold legend_entries. rewrite list_lookup_imap.
  destruct (sorted key_leb (unique (color <$> rs)) !! i); simpl; [|done].
  by intros [= _ <-].
Qed.

(** *** Order of the rows drawn *)

Lemma StronglySorted_take {A} (R : relation A) (n : nat) (l : list A) :
  StronglySorted R l → StronglySorted R (take n l).
Proof.
  intros Hsorted. revert n. induction Hsorted as [|x l Hsorted IH Hall]; intros n.
  - rewrite take_nil. constructor.
  - destruct n as [|n]; simpl; [constructor|]. constructor; [apply IH|].
    rewrite Forall_forall in Hall. apply Forall_forall. intros y Hy%subseteq_take.
    by apply Hall.
Qed.

Lemma StronglySorted_weaken {A} (R R' : relation A) (P : A → Prop) (l : list A) :
  (∀ x y, P x → P y → R x y → R' x y) →
  Forall P l → StronglySorted R l → StronglySorted R' l.
Proof.
  intros Himpl HP Hsorted. induction Hsorted as [|x l Hsorted IH Hall]; [constructor|].
  apply Forall_cons in HP as [Hx HP]. constructor; [by apply IH|].
  rewrite Forall_forall in Hall, HP. apply Forall_forall. intros y Hy.
  apply Himpl; [done|by apply HP|by apply Hall].
Qed.

(** *** Properties of the call *)

(** X8: without [top_k] nothing is filtered: the rows drawn are the rows
    of the input, in their order, each with its absolute score in the
    temporary column. *)
Theorem plot_atlas_unfiltered σ df color_col cmap_N frame :
  σ !! df = Some frame →
  ∃ fig σ',
    plot_atlas key_leb isna df color_col None cmap_N σ = Some (fig, σ') ∧
    data fig = with_abs <$> rows frame ∧
    x_plot fig = head <$> rows frame ∧
    y_plot fig = layer <$> rows frame.
Proof.
  intros Hdf.
  destruct (plot_atlas_run key_leb isna σ df color_col None cmap_N frame Hdf)
    as (fig & σ' & Hrun & Hdata & _).
  exists fig, σ'. split; [done|]. unfold x_plot, y_plot. rewrite Hdata.
  unfold filtered. simpl. split; [done|].
  by rewrite <- !list_fmap_compose.
Qed.

(** X9: whatever [top_k] and the colour mode are, the rows drawn are
    rows of the input with the temporary column filled in, none of them
    drawn more often than it occurs in the input. *)
Theorem plot_atlas_draws_input_rows σ df color_col top_k cmap_N frame :
  σ !! df = Some frame →
  ∃ fig σ',
    plot_atlas key_leb isna df color_col top_k cmap_N σ = Some (fig, σ') ∧
    data fig ⊆+ with_abs <$> rows frame ∧
    (length (data fig) ≤ length (rows frame))%nat.
Proof.
  intros Hdf.
  destruct (plot_atlas_run key_leb isna σ df color_col top_k cmap_N frame Hdf)
    as (fig & σ' & Hrun & Hdata & _).
  exists fig, σ'. split; [done|]. rewrite Hdata.
  pose proof (filtered_submseteq frame top_k) as Hsub. split; [done|].
  apply submseteq_length in Hsub. by rewrite length_fmap in Hsub.
Qed.

(** X10: in the categorical mode the legend has one entry for each
    colour value that is drawn and no other, no value twice; the entry at
    position [i] has colour [i mod cmap_N] of the palette; and the values
    are in ascending order when the order on them is total and
    transitive.  In the continuous mode there is no legend. *)
Theorem plot_atlas_legend σ df color_col top_k cmap_N frame :
  σ !! df = Some frame →
  ∃ fig σ',
    plot_atlas key_leb isna df color_col top_k cmap_N σ = Some (fig, σ') ∧
    (color_mode isna frame = false → legend fig = None) ∧
    (color_mode isna frame = true →
       ∃ entries,
         legend fig = Some entries ∧
         NoDup entries.*1 ∧
         (∀ v, v ∈ entries.*1 ↔ v ∈ color <$> data fig) ∧
         (∀ (i : nat) v (j : nat), entries !! i = Some (v, j) → j = (i mod cmap_N)%nat) ∧
         ((∀ x y, key_leb x y = true ∨ key_leb y x = true) →
          (∀ x y z, key_leb x y = true → key_leb y z = true → key_leb x z = true) →
          StronglySorted (λ x y, key_leb x y = true) entries.*1)).
Proof.
  intros Hdf.
  destruct (plot_atlas_run key_leb isna σ df color_col top_k cmap_N frame Hdf)
    as (fig & σ' & Hrun & Hdata & Hlegend & _).
  exists fig, σ'. split; [done|]. rewrite Hlegend, Hdata. split; [by intros ->|].
  intros ->. eexists. split; [done|]. split; [|split; [|split]].
  - rewrite legend_entries_fst. apply NoDup_sorted_unique.
  - intros v. apply legend_entries_keys.
  - intros i v j. apply lookup_legend_entries.
  - intros Htotal Htrans. rewrite legend_entries_fst. by apply sorted_sorted.
Qed.

(** X11: a frame with fewer than 20 rows is plotted in the categorical
    mode whatever the dtype of its colour column is; a frame without rows
    gives an empty plot with an empty legend and no ticks. *)
Theorem plot_atlas_small_frame σ df color_col top_k cmap_N frame :
  σ !! df = Some frame →
  (length (rows frame) < 20)%nat →
  ∃ fig σ',
    plot_atlas key_leb isna df color_col top_k cmap_N σ = Some (fig, σ') ∧
    is_Some (legend fig) ∧
    (rows frame = [] → data fig = [] ∧ legend fig = Some [] ∧ ticks fig = None).
Proof.
  intros Hdf Hsmall.
  destruct (plot_atlas_run key_leb isna σ df color_col top_k cmap_N frame Hdf)
    as (fig & σ' & Hrun & Hdata & Hlegend & Hticks & _).
  exists fig, σ'. split; [done|].
  assert (color_mode isna frame = true) as Hmode.
  { unfold color_mode. destruct (color_dtype frame); try done;
      (rewrite decide_True; [done|]);
      pose proof (nunique_le_length (color <$> rows frame)) as Hle;
      rewrite length_fmap in Hle; lia. }
  rewrite Hlegend, Hmode. split; [by eexists|].
  intros Hempty.
  assert (data fig = []) as Hnil.
  { pose proof (filtered_submseteq frame top_k) as Hsub.
    rewrite <- Hdata, Hempty in Hsub. by apply submseteq_nil_r in Hsub. }
  split; [done|]. rewrite <- Hdata, Hnil, Hticks. unfold axis_ticks. by rewrite Hempty.
Qed.

(** X12: with [top_k] zero or negative nothing is drawn, in either mode. *)
Theorem plot_atlas_top_k_nonpositive σ df color_col (k : Z) cmap_N frame :
  σ !! df = Some frame →
  (k ≤ 0)%Z →
  ∃ fig σ',
    plot_atlas key_leb isna df color_col (Some k) cmap_N σ = Some (fig, σ') ∧
    data fig = [] ∧
    (color_mode isna frame = true → legend fig = Some []).
Proof.
  intros Hdf Hk.
  destruct (plot_atlas_run key_leb isna σ df color_col (Some k) cmap_N frame Hdf)
    as (fig & σ' & Hrun & Hdata & Hlegend & _).
  exists fig, σ'. split; [done|].
  assert (filtered key_leb isna frame (Some k) = []) as Hnil.
  { unfold filtered. simpl. destruct (color_mode isna frame); [|by apply nlargest_nonpositive].
    apply Permutation_nil_r. rewrite groupby_apply_perm.
    generalize ((λ key, filter (λ r, color r = key) (with_abs <$> rows frame))
                  <$> sorted key_leb
                        (unique (dropna isna (color <$> (with_abs <$> rows frame))))).
    intros groups. induction groups as [|group groups IH]; [done|].
    rewrite fmap_cons. cbn [concat]. by rewrite nlargest_nonpositive, IH. }
  rewrite Hdata, Hlegend, Hnil. split; [done|]. by intros ->.
Qed.

(** X13: with [top_k] at least the number of rows, no row that has a
    colour value is left out: in the categorical mode the rows drawn are
    the rows of the input whose colour value is not missing, rearranged,
    and in the continuous mode they are all rows of the input; so in
    either mode they are all rows of an input without missing colour
    values. *)
Theorem plot_atlas_top_k_large σ df color_col (k : Z) cmap_N frame :
  σ !! df = Some frame →
  (length (rows frame) ≤ Z.to_nat k)%nat →
  ∃ fig σ',
    plot_atlas key_leb isna df color_col (Some k) cmap_N σ = Some (fig, σ') ∧
    (color_mode isna frame = true →
       data fig ≡ₚ with_abs <$> filter (λ r, isna (color r) = false) (rows frame)) ∧
    (color_mode isna frame = false → data fig ≡ₚ with_abs <$> rows frame) ∧
    ((∀ r, r ∈ rows frame → isna (color r) = false) →
       data fig ≡ₚ with_abs <$> rows frame).
Proof.
  intros Hdf Hk.
  destruct (plot_atlas_run key_leb isna σ df color_col (Some k) cmap_N frame Hdf)
    as (fig & σ' & Hrun & Hdata & _).
  exists fig, σ'. split; [done|]. rewrite Hdata. unfold filtered. simpl.
  assert (groupby_apply key_leb isna (nlargest k) (with_abs <$> rows frame)
          ≡ₚ with_abs <$> filter (λ r, isna (color r) = false) (rows frame)) as Hgroups.
  { rewrite groupby_apply_perm, <- filter_present_with_abs.
    etrans; [|apply groups_perm].
    apply concat_fmap_perm, Forall_forall. intros group Hgroup.
    apply list_elem_of_fmap in Hgroup as (key & -> & _).
    apply nlargest_all. etrans; [apply length_filter|]. by rewrite length_fmap. }
  assert (nlargest k (with_abs <$> rows frame) ≡ₚ with_abs <$> rows frame) as Hall.
  { apply nlargest_all. by rewrite length_fmap. }
  split; [by intros ->|]. split; [by intros ->|].
  intros Hpresent. destruct (color_mode isna frame); [|done].
  rewrite Hgroups. by rewrite filter_all by by apply Forall_forall.
Qed.

(** X14: in the continuous mode with [top_k] the rows drawn come in the
    order of decreasing absolute score. *)
Theorem plot_atlas_global_order σ df color_col (k : Z) cmap_N frame :
  σ !! df = Some frame →
  color_mode isna frame = false →
  ∃ fig σ',
    plot_atlas key_leb isna df color_col (Some k) cmap_N σ = Some (fig, σ') ∧
    StronglySorted (λ a b, (Qabs (score b) <= Qabs (score a))%Q) (data fig).
Proof.
  intros Hdf Hmode.
  destruct (plot_atlas_run key_leb isna σ df color_col (Some k) cmap_N frame Hdf)
    as (fig & σ' & Hrun & Hdata & _).
  exists fig, σ'. split; [done|]. rewrite Hdata. unfold filtered. rewrite Hmode. simpl.
  apply (StronglySorted_weaken no_smaller _ (λ r, r ∈ with_abs <$> rows frame)).
  - intros a b Ha Hb. by apply (no_smaller_abs (rows frame)).
  - apply Forall_forall. intros r Hr. by apply nlargest_subseteq in Hr.
  - apply StronglySorted_take, sort_descending_sorted.
Qed.

(** X15: in the categorical mode with [top_k = k] at most [k] rows are
    drawn for each distinct colour value, so at most [k] times the number
    of distinct values in all. *)
Theorem plot_atlas_categorical_bound σ df color_col (k : Z) cmap_N frame :
  σ !! df = Some frame →
  color_mode isna frame = true →
  ∃ fig σ',
    plot_atlas key_leb isna df color_col (Some k) cmap_N σ = Some (fig, σ') ∧
    (length (data fig) ≤ Z.to_nat k * nunique isna (color <$> rows frame))%nat.
Proof.
  intros Hdf Hmode.
  destruct (plot_atlas_run key_leb isna σ df color_col (Some k) cmap_N frame Hdf)
    as (fig & σ' & Hrun & Hdata & _).
  exists fig, σ'. split; [done|]. rewrite Hdata. unfold filtered. rewrite Hmode. simpl.
  rewrite groupby_apply_perm.
  etrans; [apply (length_concat_fmap_le _ _ (Z.to_nat k))|].
  - intros l. unfold nlargest. rewrite length_take. lia.
  - rewrite length_fmap, sorted_perm. unfold nunique.
    rewrite <- list_fmap_compose.
    by rewrite (list_fmap_ext (color ∘ with_abs) color (rows frame)) by done.
Qed.

(** X16: filtering does not move a point off the ticks: every row drawn
    has its layer id, when it is not negative, among the ticks of the
    layer axis, and its head id, when it is not negative and even, among
    the ticks of the head axis. *)
Theorem plot_atlas_points_on_ticks σ df color_col top_k cmap_N frame :
  σ !! df = Some frame →
  ∃ fig σ',
    plot_atlas key_leb isna df color_col top_k cmap_N σ = Some (fig, σ') ∧
    ∀ r, r ∈ data fig →
      ∃ xticks yticks,
        ticks fig = Some (xticks, yticks) ∧
        ((0 ≤ layer r)%Z → layer r ∈ yticks) ∧
        ((0 ≤ head r)%Z → (head r mod 2 = 0)%Z → head r ∈ xticks).
Proof.
  intros Hdf.
  destruct (plot_atlas_run key_leb isna σ df color_col top_k cmap_N frame Hdf)
    as (fig & σ' & Hrun & Hdata & _ & Hticks & _).
  exists fig, σ'. split; [done|]. intros r Hr.
  rewrite Hdata in Hr. apply (λ H, elem_of_submseteq _ _ _ H (filtered_submseteq frame top_k)) in Hr.
  apply list_elem_of_fmap in Hr as (r0 & -> & Hr0).
  rewrite Hticks. unfold axis_ticks.
  destruct (rows frame) as [|r1 rs1] eqn:Hrows; [by apply elem_of_nil in Hr0|].
  destruct (column_max_spec (head r1) (head <$> rs1)) as [_ Hmax_h].
  destruct (column_max_spec (layer r1) (layer <$> rs1)) as [_ Hmax_l].
  eexists _, _. split; [done|]. simpl. split.
  - intros Hl. apply elem_of_arange; [lia|]. rewrite Z.sub_0_r, Z.mod_1_r.
    assert (layer r0 ≤ column_max (layer r1) (layer <$> rs1))%Z.
    { apply Hmax_l. rewrite <- fmap_cons. apply list_elem_of_fmap. by exists r0. }
    lia.
  - intros Hh Heven. apply elem_of_arange; [lia|]. rewrite Z.sub_0_r.
    assert (head r0 ≤ column_max (head r1) (head <$> rs1))%Z.
    { apply Hmax_h. rewrite <- fmap_cons. apply list_elem_of_fmap. by exists r0. }
    lia.
Qed.

End atlas_more.

(** ** The further properties at sample inputs *)

Lemma decode_tokens_for_plotting_last_special_witness :
  ∃ out, decode_tokens_for_plotting [0%Z] ampersand_tokenizer = Some out
         ∧ out !! 0%nat = Some (replace "_"%char (escaped "_"%char) "&_").
Proof.
  apply (decode_tokens_for_plotting_last_special [0%Z] ampersand_tokenizer ["&_"]
           0%nat "&_" "_"%char ["&"; "%"; "$"; "#"]%char ["{"; "}"; "\"]%char).
  - reflexivity.
  - reflexivity.
  - reflexivity.
  - reflexivity.
  - intros c' Hc'. repeat (apply elem_of_cons in Hc' as [->|Hc']; [reflexivity|]).
    by apply elem_of_nil in Hc'.
Defined.

Lemma decode_tokens_for_plotting_injective_witness :
  mapM sample_tokenizer [1%Z; 2%Z] = mapM sample_tokenizer [1%Z; 3%Z].
Proof.
  apply (decode_tokens_for_plotting_injective [1%Z; 2%Z] [1%Z; 3%Z]
           sample_tokenizer sample_tokenizer ["a\_b\_"; "hi"]).
  - reflexivity.
  - reflexivity.
Defined.

Lemma jupyter_heatmap_length_error_witness :
  jupyter_heatmap sample_colormap ["a"; "b"] (NdArray [5%Q]) "bwr"
  = Raise (AssertionError length_message).
Proof.
  apply (jupyter_heatmap_length_error sample_colormap ["a"; "b"] (NdArray [5%Q]) "bwr").
  simpl. lia.
Defined.

Lemma jupyter_heatmap_one_element_per_token_witness :
  ∃ elements,
    jupyter_heatmap sample_colormap ["a"; "b"] (NdArray [0%Q; 1 # 2]%Q) "bwr"
      = Ok (join (html_open :: elements ++ [html_close])) ∧
    length elements = length ["a"; "b"] ∧
    ∀ i token v, ["a"; "b"] !! i = Some token →
      values (NdArray [0%Q; 1 # 2]%Q) !! i = Some v →
      ∃ r g b, channels sample_colormap v "bwr" = Ok (r, g, b) ∧
               elements !! i = Some (styled_element r g b (text_color r g b) token).
Proof.
  apply (jupyter_heatmap_one_element_per_token sample_colormap ["a"; "b"]
           (NdArray [0%Q; 1 # 2]%Q) "bwr").
  - reflexivity.
  - repeat constructor; discriminate.
  - right. discriminate.
  - intros v _. eexists. vm_compute. reflexivity.
Defined.

Lemma jupyter_heatmap_colormap_error_witness :
  jupyter_heatmap partial_colormap ["a"; "b"] (PyList [0%Q; 1%Q]) "bwr"
  = Raise (ValueError "no colour").
Proof.
  apply (jupyter_heatmap_colormap_error partial_colormap ["a"; "b"] (PyList [0%Q; 1%Q])
           "bwr" 1%nat 1%Q (ValueError "no colour")).
  - reflexivity.
  - discriminate.
  - reflexivity.
  - reflexivity.
  - intros j x Hj Hx. destruct j as [|j]; [|lia]. injection Hx as <-.
    eexists. vm_compute. reflexivity.
Defined.

Lemma jupyter_heatmap_returns_only_checked_witness :
  length ["a"; "b"] = length (values (NdArray [-1; 1]%Q)) ∧
  (hasattr_min (NdArray [-1; 1]%Q) = true →
     values (NdArray [-1; 1]%Q) ≠ [] ∧ Forall in_range (values (NdArray [-1; 1]%Q))) ∧
  ∃ elements,
    join [html_open;
          styled_element 0 0 0 "white" "a"; styled_element 255 255 255 "black" "b";
          html_close]
    = join (html_open :: elements ++ [html_close]) ∧
    length elements = length ["a"; "b"] ∧
    ∀ i token, ["a"; "b"] !! i = Some token →
      ∃ v r g b,
        values (NdArray [-1; 1]%Q) !! i = Some v ∧
        channels two_tone_colormap v "bwr" = Ok (r, g, b) ∧
        elements !! i
        = Some ("<span style=" +:+ dquote +:+ "background-color: rgb("
               +:+ pretty r +:+ "," +:+ pretty g +:+ "," +:+ pretty b +:+ "); "
               +:+ "color: " +:+ text_color r g b +:+ "; padding: 2px 4px; margin: 1px; "
               +:+ "display: inline-block; border-radius: 2px;" +:+ dquote +:+ ">"
               +:+ token +:+ "</span>").
Proof.
  apply (jupyter_heatmap_returns_only_checked two_tone_colormap ["a"; "b"]
           (NdArray [-1; 1]%Q) "bwr").
  vm_compute. reflexivity.
Defined.

Lemma text_color_two_equal_channels_witness :
  (text_color 128 128 128 = "white" ↔ (exact_luminance 128 128 128 < 1 # 2)%Q)
  ∧ (text_color 128 128 128 = "black" ↔ (1 # 2 < exact_luminance 128 128 128)%Q).
Proof.
  apply (text_color_two_equal_channels 128 128 128); [lia|lia|lia|].
  by left.
Defined.

Lemma plot_atlas_unfiltered_witness :
  ∃ fig σ',
    plot_atlas Z.leb no_missing 1%positive "cluster" None 10 sample_store = Some (fig, σ') ∧
    data fig = with_abs <$> rows sample_frame ∧
    x_plot fig = head <$> rows sample_frame ∧
    y_plot fig = layer <$> rows sample_frame.
Proof.
  apply (plot_atlas_unfiltered Z.leb no_missing sample_store 1%positive "cluster" 10 sample_frame).
  reflexivity.
Defined.

Lemma plot_atlas_draws_input_rows_witness :
  ∃ fig σ',
    plot_atlas Z.leb no_missing 1%positive "cluster" (Some 1%Z) 10 sample_store = Some (fig, σ') ∧
    data fig ⊆+ with_abs <$> rows sample_frame ∧
    (length (data fig) ≤ length (rows sample_frame))%nat.
Proof.
  apply (plot_atlas_draws_input_rows Z.leb no_missing sample_store 1%positive "cluster" (Some 1%Z) 10
           sample_frame).
  reflexivity.
Defined.

Lemma plot_atlas_legend_witness :
  ∃ fig σ',
    plot_atlas Z.leb no_missing 1%positive "cluster" (Some 1%Z) 10 sample_store = Some (fig, σ') ∧
    (color_mode no_missing sample_frame = false → legend fig = None) ∧
    (color_mode no_missing sample_frame = true →
       ∃ entries,
         legend fig = Some entries ∧
         NoDup entries.*1 ∧
         (∀ v, v ∈ entries.*1 ↔ v ∈ color <$> data fig) ∧
         (∀ (i : nat) v (j : nat), entries !! i = Some (v, j) → j = (i mod 10)%nat) ∧
         ((∀ x y, Z.leb x y = true ∨ Z.leb y x = true) →
          (∀ x y z, Z.leb x y = true → Z.leb y z = true → Z.leb x z = true) →
          StronglySorted (λ x y, Z.leb x y = true) entries.*1)).
Proof.
  apply (plot_atlas_legend Z.leb no_missing sample_store 1%positive "cluster" (Some 1%Z) 10
           sample_frame).
  reflexivity.
Defined.

Lemma plot_atlas_small_frame_witness :
  ∃ fig σ',
    plot_atlas Z.leb no_missing 1%positive "cluster" None 10 sample_store = Some (fig, σ') ∧
    is_Some (legend fig) ∧
    (rows sample_frame = [] → data fig = [] ∧ legend fig = Some [] ∧ ticks fig = None).
Proof.
  apply (plot_atlas_small_frame Z.leb no_missing sample_store 1%positive "cluster" None 10
           sample_frame).
  - reflexivity.
  - simpl. lia.
Defined.

Lemma plot_atlas_top_k_nonpositive_witness :
  ∃ fig σ',
    plot_atlas Z.leb no_missing 1%positive "cluster" (Some 0%Z) 10 sample_store = Some (fig, σ') ∧
    data fig = [] ∧
    (color_mode no_missing sample_frame = true → legend fig = Some []).
Proof.
  apply (plot_atlas_top_k_nonpositive Z.leb no_missing sample_store 1%positive "cluster" 0%Z 10
           sample_frame).
  - reflexivity.
  - lia.
Defined.

Lemma plot_atlas_top_k_large_witness :
  ∃ fig σ',
    plot_atlas nan_leb nan_isna 1%positive "cluster" (Some 10%Z) 10 store_with_nan
      = Some (fig, σ') ∧
    (color_mode nan_isna frame_with_nan = true →
       data fig
       ≡ₚ with_abs <$> filter (λ r, nan_isna (color r) = false) (rows frame_with_nan)) ∧
    (color_mode nan_isna frame_with_nan = false →
       data fig ≡ₚ with_abs <$> rows frame_with_nan) ∧
    ((∀ r, r ∈ rows frame_with_nan → nan_isna (color r) = false) →
       data fig ≡ₚ with_abs <$> rows frame_with_nan).
Proof.
  apply (plot_atlas_top_k_large nan_leb nan_isna store_with_nan 1%positive "cluster"
           10%Z 10 frame_with_nan).
  - reflexivity.
  - simpl. lia.
Defined.

Lemma plot_atlas_global_order_witness :
  ∃ fig σ',
    plot_atlas Z.leb no_missing 1%positive "cluster" (Some 3%Z) 10
      {[ 1%positive := frame_with_colors 20 ]} = Some (fig, σ') ∧
    StronglySorted (λ a b, (Qabs (score b) <= Qabs (score a))%Q) (data fig).
Proof.
  apply (plot_atlas_global_order Z.leb no_missing {[ 1%positive := frame_with_colors 20 ]}
           1%positive "cluster" 3%Z 10 (frame_with_colors 20)).
  - reflexivity.
  - vm_compute. reflexivity.
Defined.

Lemma plot_atlas_categorical_bound_witness :
  ∃ fig σ',
    plot_atlas Z.leb no_missing 1%positive "cluster" (Some 1%Z) 10 sample_store = Some (fig, σ') ∧
    (length (data fig) ≤ Z.to_nat 1 * nunique no_missing (color <$> rows sample_frame))%nat.
Proof.
  apply (plot_atlas_categorical_bound Z.leb no_missing sample_store 1%positive "cluster" 1%Z 10
           sample_frame).
  - reflexivity.
  - reflexivity.
Defined.

Lemma plot_atlas_points_on_ticks_witness :
  ∃ fig σ',
    plot_atlas Z.leb no_missing 1%positive "cluster" (Some 1%Z) 10 sample_store = Some (fig, σ') ∧
    ∀ r, r ∈ data fig →
      ∃ xticks yticks,
        ticks fig = Some (xticks, yticks) ∧
        ((0 ≤ layer r)%Z → layer r ∈ yticks) ∧
        ((0 ≤ head r)%Z → (head r mod 2 = 0)%Z → head r ∈ xticks).
Proof.
  apply (plot_atlas_points_on_ticks Z.leb no_missing sample_store 1%positive "cluster" (Some 1%Z) 10
           sample_frame).
  reflexivity.
Defined.
